(** * pogodata: a shallow embedding of [pogodata/pogodata.py]

    The development follows the module top to bottom: Python strings and
    values, the [PogoData] object with its exceptions, the finders, the
    enum index, the locale table, the record source and the four passes of
    [__make_mon_list]; the theorems about them come last. *)

From Stdlib Require Import Ascii.
From stdpp Require Import base option list gmap strings.

Set Warnings "-register-all".
Open Scope Z_scope.

(** ** Python strings

    A [str] is a [string]; the methods below cut and compare texts
    character by character.  What depends on the table of the letters,
    [str.lower] and the regular expressions of [re], is among the
    collaborators of the module further down. *)

Module Str.

Definition NL : string := String "010"%char "".
Definition TAB : string := String "009"%char "".

(** [s.startswith(p)] *)
Fixpoint startswith (p s : string) : bool :=
  match p, s with
  | EmptyString, _ => true
  | String a p', String b s' => bool_decide (a = b) && startswith p' s'
  | String _ _, EmptyString => false
  end.

(** [p in s] for strings *)
Fixpoint contains (p s : string) : bool :=
  startswith p s ||
  match s with
  | EmptyString => false
  | String _ s' => contains p s'
  end.

(** [s.replace(c, "")] for a one-character [c] *)
Fixpoint remove_char (c : ascii) (s : string) : string :=
  match s with
  | EmptyString => EmptyString
  | String a s' =>
      if bool_decide (a = c) then remove_char c s' else String a (remove_char c s')
  end.

(** [s.split(sep)] for a non-empty separator: the pieces between the
    non-overlapping occurrences of [sep], scanned from the left.  [skip]
    counts the characters of a separator still to be dropped and [cur] is
    the piece being read. *)
Fixpoint split_go (sep : string) (skip : nat) (cur s : string) : list string :=
  match s with
  | EmptyString => [cur]
  | String c s' =>
      match skip with
      | S k => split_go sep k cur s'
      | O =>
          if startswith sep s
          then cur :: split_go sep (String.length sep - 1) EmptyString s'
          else split_go sep 0 (cur +:+ String c EmptyString) s'
      end
  end.

Definition split (sep s : string) : list string := split_go sep 0 EmptyString s.

(** [s.zfill(w)]: zeros go after a leading sign. *)
Definition zfill (w : nat) (s : string) : string :=
  let pad := String.concat "" (replicate (w - String.length s) "0") in
  match s with
  | String "-"%char r => String "-"%char (pad +:+ r)
  | String "+"%char r => String "+"%char (pad +:+ r)
  | _ => pad +:+ s
  end.

Definition digit_char (d : nat) : ascii := ascii_of_nat (48 + d).

Fixpoint digits_go (fuel : nat) (n : N) (acc : string) : string :=
  match fuel with
  | O => acc
  | S f =>
      let acc' := String (digit_char (N.to_nat (n mod 10))) acc in
      if (n / 10 =? 0)%N then acc' else digits_go f (n / 10)%N acc'
  end.

(** [str(n)] for an [int]; a number has fewer digits than bits, plus one. *)
Definition of_Z (z : Z) : string :=
  let n := Z.to_N (Z.abs z) in
  let ds := digits_go (S (N.to_nat (N.log2 n))) n EmptyString in
  if z <? 0 then String "-"%char ds else ds.

Definition is_space (c : ascii) : bool :=
  match c with
  | "009" | "010" | "011" | "012" | "013" | "028" | "029" | "030" | "031" | " " => true
  | _ => false
  end%char.

Fixpoint lstrip (s : string) : string :=
  match s with
  | String c s' => if is_space c then lstrip s' else s
  | EmptyString => EmptyString
  end.

Definition rstrip (s : string) : string := String.rev (lstrip (String.rev s)).

Definition digit_val (c : ascii) : option Z :=
  let n := nat_of_ascii c in
  if ((48 <=? n)%nat && (n <=? 57)%nat)%bool then Some (Z.of_nat (n - 48)) else None.

(** The digits of an [int] literal: one underscore is allowed between two
    digits.  [prev] tells whether the previous character was a digit. *)
Fixpoint parse_digits (acc : Z) (prev : bool) (s : string) : option Z :=
  match s with
  | EmptyString => if prev then Some acc else None
  | String c s' =>
      match digit_val c with
      | Some d => parse_digits (10 * acc + d) true s'
      | None =>
          if (bool_decide (c = "_"%char) && prev)%bool
          then parse_digits acc false s' else None
      end
  end.

(** [int(s)] in base ten, written with the digits 0-9: [None] stands for
    [ValueError]. *)
Definition to_Z (s : string) : option Z :=
  match rstrip (lstrip s) with
  | String "-"%char r => Z.opp <$> parse_digits 0 false r
  | String "+"%char r => parse_digits 0 false r
  | r => parse_digits 0 false r
  end.

End Str.


(** ** Python values

    JSON payloads and attribute values.  A [dict] with string keys is an
    association list in insertion order whose keys are distinct; an entity
    object is referred to by its address in the object store.  Numbers are
    integers: the module never inspects a float. *)

Inductive pyval : Type :=
  | PNone
  | PBool (b : bool)
  | PInt (n : Z)
  | PStr (s : string)
  | PList (l : list pyval)
  | PDict (d : list (string * pyval))
  | PRef (a : nat).

(** An ordered dictionary: [d.get(k)] and [d[k] = v]. *)
Fixpoint dict_get {K V} `{EqDecision K} (k : K) (d : list (K * V)) : option V :=
  match d with
  | [] => None
  | (k', v) :: d' => if decide (k = k') then Some v else dict_get k d'
  end.

Fixpoint dict_set {K V} `{EqDecision K} (k : K) (v : V) (d : list (K * V)) : list (K * V) :=
  match d with
  | [] => [(k, v)]
  | (k', v') :: d' =>
      if decide (k = k') then (k, v) :: d' else (k', v') :: dict_set k v d'
  end.

(** [a == b].  [True == 1]; lists compare element by element, dicts as
    mappings, objects by identity. *)
Fixpoint py_eqb (a b : pyval) {struct a} : bool :=
  match a, b with
  | PNone, PNone => true
  | PBool x, PBool y => bool_decide (x = y)
  | PBool x, PInt n | PInt n, PBool x => bool_decide (n = if x then 1 else 0)
  | PInt n, PInt m => bool_decide (n = m)
  | PStr s, PStr t => bool_decide (s = t)
  | PList l, PList l' =>
      (fix go (l l' : list pyval) : bool :=
         match l, l' with
         | [], [] => true
         | x :: r, y :: r' => py_eqb x y && go r r'
         | _, _ => false
         end) l l'
  | PDict d, PDict d' =>
      bool_decide (length d = length d') &&
      (fix go (d : list (string * pyval)) : bool :=
         match d with
         | [] => true
         | (k, v) :: r =>
             match dict_get k d' with
             | Some v' => py_eqb v v'
             | None => false
             end && go r
         end) d
  | PRef x, PRef y => bool_decide (x = y)
  | _, _ => false
  end.

(** [bool(v)] *)
Definition truthy (v : pyval) : bool :=
  match v with
  | PNone => false
  | PBool b => b
  | PInt n => negb (bool_decide (n = 0))
  | PStr s => negb (bool_decide (s = ""))
  | PList l => negb (bool_decide (l = []))
  | PDict d => negb (bool_decide (d = []))
  | PRef _ => true
  end.

(** ** Exceptions and results *)

Inductive exn : Type :=
  | KeyError (msg : string)
  | IndexError
  | AttributeError
  | TypeError
  | ValueError
  | Unmodelled (what : string).
  (* [Unmodelled]: Python goes on where this embedding stops *)

Inductive result (A : Type) : Type :=
  | Ok (a : A)
  | Raise (e : exn).
Arguments Ok {A} a.
Arguments Raise {A} e.

(** ** The [PogoData] object

    [__dict__] of an entity is a finite map from attribute names to values;
    the store holds every entity object, and the five lists of the catalog
    hold addresses into it.  [raw_protos], [raw_gamemaster] and the locale
    array are what [httpget] delivered. *)

Abbreviation Obj := (gmap string pyval).

Record PogoData : Type := mkPogoData {
  cached_enums : gmap string (list (string * Z));
  icon_url : string;
  raw_protos : string;
  raw_gamemaster : list pyval;
  locale : gmap string string;
  items : list nat;
  types : list nat;
  moves : list nat;
  grunts : list nat;
  mons : list nat;
  store : list Obj
}.

(** What the three [httpget] calls of [reload] return. *)
Record Fetched : Type := mkFetched {
  f_protos : string;
  f_gamemaster : list pyval;
  f_locale : list string
}.

(** State and exceptions: a method runs on the object and either returns or
    raises, and what it wrote before raising stays written. *)
Definition M (A : Type) : Type := PogoData → result A * PogoData.

Global Instance M_ret : MRet M := λ A a s, (Ok a, s).
Global Instance M_bind : MBind M := λ A B f m s,
  match m s with
  | (Ok a, s') => f a s'
  | (Raise e, s') => (Raise e, s')
  end.

Definition raise {A} (e : exn) : M A := λ s, (Raise e, s).
Definition self : M PogoData := λ s, (Ok s, s).
Definition modify (f : PogoData → PogoData) : M () := λ s, (Ok (), f s).
Definition lift {A} (r : result A) : M A := λ s, (r, s).

(** [for x in l: body(x)] *)
Fixpoint for_each {A} (l : list A) (body : A → M ()) : M () :=
  match l with
  | [] => mret ()
  | x :: r => body x ;; for_each r body
  end.

(** [[f(x) for x in l]] *)
Fixpoint for_list {A B} (l : list A) (f : A → M B) : M (list B) :=
  match l with
  | [] => mret []
  | x :: r => y ← f x; ys ← for_list r f; mret (y :: ys)
  end.

Definition set_cached_enums c s := mkPogoData c (icon_url s) (raw_protos s)
  (raw_gamemaster s) (locale s) (items s) (types s) (moves s) (grunts s) (mons s) (store s).
Definition set_icon_url u s := mkPogoData (cached_enums s) u (raw_protos s)
  (raw_gamemaster s) (locale s) (items s) (types s) (moves s) (grunts s) (mons s) (store s).
Definition set_raw_protos p s := mkPogoData (cached_enums s) (icon_url s) p
  (raw_gamemaster s) (locale s) (items s) (types s) (moves s) (grunts s) (mons s) (store s).
Definition set_raw_gamemaster g s := mkPogoData (cached_enums s) (icon_url s) (raw_protos s)
  g (locale s) (items s) (types s) (moves s) (grunts s) (mons s) (store s).
Definition set_locale l s := mkPogoData (cached_enums s) (icon_url s) (raw_protos s)
  (raw_gamemaster s) l (items s) (types s) (moves s) (grunts s) (mons s) (store s).
Definition set_items l s := mkPogoData (cached_enums s) (icon_url s) (raw_protos s)
  (raw_gamemaster s) (locale s) l (types s) (moves s) (grunts s) (mons s) (store s).
Definition set_types l s := mkPogoData (cached_enums s) (icon_url s) (raw_protos s)
  (raw_gamemaster s) (locale s) (items s) l (moves s) (grunts s) (mons s) (store s).
Definition set_moves l s := mkPogoData (cached_enums s) (icon_url s) (raw_protos s)
  (raw_gamemaster s) (locale s) (items s) (types s) l (grunts s) (mons s) (store s).
Definition set_grunts l s := mkPogoData (cached_enums s) (icon_url s) (raw_protos s)
  (raw_gamemaster s) (locale s) (items s) (types s) (moves s) l (mons s) (store s).
Definition set_mons l s := mkPogoData (cached_enums s) (icon_url s) (raw_protos s)
  (raw_gamemaster s) (locale s) (items s) (types s) (moves s) (grunts s) l (store s).
Definition set_store h s := mkPogoData (cached_enums s) (icon_url s) (raw_protos s)
  (raw_gamemaster s) (locale s) (items s) (types s) (moves s) (grunts s) (mons s) h.

Global Instance result_ret : MRet result := λ A a, Ok a.
Global Instance result_bind : MBind result := λ A B f r,
  match r with
  | Ok a => f a
  | Raise e => Raise e
  end.

(** ** Collaborators

    The built-in [str.lower], [re], [util.POKEMON_TYPES], the four list
    factories and the [Pokemon] class live outside [pogodata.py]; the module
    is read against any implementation of them.

    [re_findall pattern text] is [re.findall(pattern, text, re.IGNORECASE)];
    it raises where the call does, on a pattern that is no regular
    expression, and where the call returns something else than a list of
    strings, which the next line of [get_enum] turns into an exception.

    A factory is handed the object itself: it is a method like any other,
    free to call the finders and [get_enum], to raise, and to create the
    entities it returns, whose addresses it answers with.  [Pokemon_copy]
    works on the object store and returns the address of the copy. *)

Class Externals : Type := {
  str_lower : string → string;
  re_findall : string → string → result (list string);
  re_search : string → string → bool;
  re_sub : string → string → string → string;
  POKEMON_TYPES : list pyval;
  make_item_list : M (list nat);
  make_type_list : M (list nat);
  make_move_list : M (list nat);
  make_grunt_list : M (list nat);
  Pokemon_init : pyval → pyval → pyval → pyval → Obj;
  Pokemon_copy : list Obj → nat → list Obj * nat;
  Pokemon_make_stats : Obj → Obj;
  Pokemon_gen_asset : Obj → Obj
}.

(** ** Primitive operations on values and objects *)

(** [l[i]] *)
Definition index {A} (l : list A) (i : nat) : result A :=
  match l !! i with
  | Some x => Ok x
  | None => Raise IndexError
  end.

(** [d.get(k, dflt)]: only a [dict] has the method. *)
Definition py_get (d : pyval) (k : string) (dflt : pyval) : result pyval :=
  match d with
  | PDict d => Ok (default dflt (dict_get k d))
  | _ => Raise AttributeError
  end.

(** [d[k]] for a string [k] *)
Definition py_item (d : pyval) (k : string) : result pyval :=
  match d with
  | PDict d =>
      match dict_get k d with
      | Some v => Ok v
      | None => Raise (KeyError k)
      end
  | _ => Raise TypeError
  end.

(** [k in v] for a string [k] *)
Definition py_in (k : string) (v : pyval) : result bool :=
  match v with
  | PDict d => Ok (bool_decide (is_Some (dict_get k d)))
  | PStr s => Ok (Str.contains k s)
  | PList l => Ok (existsb (py_eqb (PStr k)) l)
  | _ => Raise TypeError
  end.

(** The elements [for x in v] runs through. *)
Definition py_iter (v : pyval) : result (list pyval) :=
  match v with
  | PList l => Ok l
  | PDict d => Ok (PStr <$> d.*1)
  | PStr s => Ok ((λ c, PStr (String c "")) <$> String.list_ascii_of_string s)
  | _ => Raise TypeError
  end.

(** [v > 0] *)
Definition py_gt0 (v : pyval) : result bool :=
  match v with
  | PInt n => Ok (bool_decide (0 < n))
  | PBool b => Ok b
  | _ => Raise TypeError
  end.

(** [str(v)] for the values whose text does not depend on an address or on
    [repr]. *)
Definition py_str (v : pyval) : result string :=
  match v with
  | PNone => Ok "None"
  | PBool b => Ok (if b then "True" else "False")
  | PInt n => Ok (Str.of_Z n)
  | PStr s => Ok s
  | _ => Raise (Unmodelled "str of a container or an object")
  end.

(** [obj.__dict__.get(key)] *)
Definition attr (o : Obj) (key : string) : pyval := default PNone (o !! key).

Definition obj_at (h : list Obj) (a : nat) : Obj := default ∅ (h !! a).

(** [v.name] *)
Definition getattr (v : pyval) (name : string) : M pyval := λ s,
  match v with
  | PRef a =>
      match obj_at (store s) a !! name with
      | Some x => (Ok x, s)
      | None => (Raise AttributeError, s)
      end
  | _ => (Raise AttributeError, s)
  end.

(** [v.name = x] *)
Definition setattr (v : pyval) (name : string) (x : pyval) : M () := λ s,
  match v with
  | PRef a => (Ok (), set_store (alter (insert name x) a (store s)) s)
  | _ => (Raise AttributeError, s)
  end.

(** [v.name.append(x)] *)
Definition attr_append (v : pyval) (name : string) (x : pyval) : M () :=
  l ← getattr v name;
  match l with
  | PList l => setattr v name (PList (l ++ [x]))
  | _ => raise AttributeError
  end.

(** A new object in the store. *)
Definition alloc (o : Obj) : M pyval := λ s,
  (Ok (PRef (length (store s))), set_store (store s ++ [o]) s).

Definition alloc_all (l : list Obj) : M (list nat) := λ s,
  (Ok (seq (length (store s)) (length l)), set_store (store s ++ l) s).

Section Methods.
Context `{Externals}.

(** [mon.copy()]: of an entity, of a list or of a dict. *)
Definition copy (v : pyval) : M pyval := λ s,
  match v with
  | PRef a =>
      let '(h, a') := Pokemon_copy (store s) a in (Ok (PRef a'), set_store h s)
  | PList _ | PDict _ => (Ok v, s)
  | _ => (Raise AttributeError, s)
  end.

(** [mon._gen_asset()] and [mon._make_stats()] *)
Definition call_method (f : Obj → Obj) (v : pyval) : M () := λ s,
  match v with
  | PRef a => (Ok (), set_store (alter f a (store s)) s)
  | _ => (Raise AttributeError, s)
  end.

(** ** QueryIndex: [__get_object] and the finders *)

Definition wanted (o : Obj) (args : list (string * pyval)) : bool :=
  forallb (λ kv, py_eqb (attr o kv.1) kv.2) args.

Fixpoint get_object_go (h : list Obj) (obj_list : list nat)
    (args : list (string * pyval)) (match_one : bool) (final : list pyval) : pyval :=
  match obj_list with
  | [] => if match_one then PNone else PList final
  | a :: r =>
      if wanted (obj_at h a) args
      then if match_one then PRef a
           else get_object_go h r args match_one (final ++ [PRef a])
      else get_object_go h r args match_one final
  end.

Definition get_object (h : list Obj) (obj_list : list nat)
    (args : list (string * pyval)) (match_one : bool) : pyval :=
  get_object_go h obj_list args match_one [].

Definition get_mon (get_one : bool) (args : list (string * pyval)) : M pyval :=
  s ← self;
  let mon := get_object (store s) (mons s) args get_one in
  c ← lift (py_gt0 (default (PInt 0) (dict_get "costume" args)));
  if c : bool then
    mon ← copy mon;
    costume ← lift (py_item (PDict args) "costume");
    setattr mon "costume" costume;;
    call_method Pokemon_gen_asset mon;;
    mret mon
  else mret mon.

Definition get_type (args : list (string * pyval)) : M pyval :=
  args ← match dict_get "template" args with
          | Some (PStr t) =>
              if negb (Str.startswith "POKEMON_TYPE_" t)
              then mret (dict_set "template" (PStr ("POKEMON_TYPE_" +:+ t)) args)
              else mret args
          | Some _ => raise AttributeError
          | None => mret args
          end;
  s ← self;
  mret (get_object (store s) (types s) args true).

Definition get_item (args : list (string * pyval)) : M pyval :=
  s ← self; mret (get_object (store s) (items s) args true).

Definition get_move (args : list (string * pyval)) : M pyval :=
  s ← self; mret (get_object (store s) (moves s) args true).

Definition get_grunt (args : list (string * pyval)) : M pyval :=
  s ← self; mret (get_object (store s) (grunts s) args true).

(** ** LocaleTable *)

Definition get_locale (s : PogoData) (key : string) : string :=
  default "?" (locale s !! str_lower key).

(** ** EnumIndex *)

(** [f"enum {enum} " + r"{[^}]*}"]: the name goes into the regular
    expression as it is. *)
Definition enum_pattern (enum : string) : string :=
  "enum " +:+ enum +:+ " " +:+ "{[^}]*}".

(** What [get_enum] returns: the mapping from keys to numbers, or its
    inversion. *)
Inductive enum_map : Type :=
  | Fwd (d : list (string * Z))
  | Rev (d : list (Z * string)).

(** The loop over the lines of the block. *)
Fixpoint parse_entries (entries : list string) (final : list (string * Z))
    : result (list (string * Z)) :=
  match entries with
  | [] => Ok final
  | entry :: r =>
      k ← index (Str.split " =" entry) 0;
      v ← index (Str.split "= " entry) 1;
      v ← index (Str.split ";" v) 0;
      v ← match Str.to_Z v with Some v => Ok v | None => Raise ValueError end;
      parse_entries r (dict_set k v final)
  end.

(** [{value: key for key, value in final.items()}] *)
Definition invert (final : list (string * Z)) : list (Z * string) :=
  foldl (λ acc kv, dict_set kv.2 kv.1 acc) [] final.

(** The text of a block to its mapping. *)
Definition parse_enum (proto : string) : result (list (string * Z)) :=
  let proto := Str.remove_char "009"%char proto in
  proto ← index (Str.split ("{" +:+ Str.NL) proto) 1;
  proto ← index (Str.split (Str.NL +:+ "}") proto) 0;
  parse_entries (Str.split Str.NL proto) [].

Definition get_enum (enum : string) (reverse : bool) : M enum_map :=
  s ← self;
  match cached_enums s !! str_lower enum with
  | Some (e :: cached) => mret (Fwd (e :: cached))
  | _ =>
      proto ← lift (re_findall (enum_pattern enum) (raw_protos s));
      match proto with
      | [] => raise (KeyError ("Could not find Enum " +:+ enum))
      | proto :: _ =>
          final ← lift (parse_enum proto);
          modify (λ s, set_cached_enums (<[str_lower enum := final]> (cached_enums s)) s);;
          mret (if reverse then Rev (invert final) else Fwd final)
      end
  end.

(** [m.get(key, dflt)] on what [get_enum] returned. *)
Definition enum_get (m : enum_map) (key dflt : pyval) : result pyval :=
  match key with
  | PList _ | PDict _ => Raise TypeError
  | _ =>
      Ok (match m, key with
          | Fwd d, PStr k => from_option PInt dflt (dict_get k d)
          | Rev d, PInt n => from_option PStr dflt (dict_get n d)
          | Rev d, PBool b => from_option PStr dflt (dict_get (if b then 1 else 0) d)
          | _, _ => dflt
          end)
  end.

(** ** RecordSource *)

Definition given (settings : option string) : bool :=
  match settings with
  | Some k => negb (bool_decide (k = ""))
  | None => false
  end.

Fixpoint gamemaster_go (pattern : string) (settings : option string)
    (entries : list pyval) (found : list (string * pyval))
    : result (list (string * pyval)) :=
  match entries with
  | [] => Ok found
  | entry :: r =>
      templateid ← py_get entry "templateId" (PStr "");
      match templateid with
      | PStr templateid =>
          if re_search pattern templateid then
            data ← py_get entry "data" (PDict []);
            data ← (if given settings
                    then py_get data (default "" settings) (PDict [])
                    else Ok data);
            gamemaster_go pattern settings r (found ++ [(templateid, data)])
          else gamemaster_go pattern settings r found
      | _ => Raise TypeError
      end
  end.

Definition get_gamemaster (pattern : string) (settings : option string)
    : M (list (string * pyval)) :=
  s ← self; lift (gamemaster_go pattern settings (raw_gamemaster s) []).

(** ** CreatureGraphBuilder: [__make_mon_list] *)

(** The local function [__typing]. *)
Definition typing (mon : pyval) (type1ref type2ref : string) : M () :=
  raw ← getattr mon "raw";
  t1 ← lift (py_get raw type1ref PNone);
  t2 ← lift (py_get raw type2ref PNone);
  for_each [t1; t2] (λ typing,
    if truthy typing then
      t ← get_type [("template", typing)];
      attr_append mon "types" t
    else mret ()).

Definition mons_append (mon : pyval) : M () :=
  match mon with
  | PRef a => modify (λ s, set_mons (mons s ++ [a]) s)
  | _ => raise (Unmodelled "a catalog entry that is not an entity")
  end.

(** The body of the loop over the temporary evolutions of [mon]. *)
Definition temp_evo_step (megas : enum_map) (locale_key : string)
    (mon temp_evo : pyval) : M () :=
  evo ← copy mon;
  ty ← lift (index POKEMON_TYPES 2);
  setattr evo "type" ty;;
  tet ← lift (py_get temp_evo "tempEvoId" PNone);
  setattr evo "temp_evolution_template" tet;;
  tid ← lift (enum_get megas tet PNone);
  setattr evo "temp_evolution_id" tid;;
  setattr evo "raw" temp_evo;;
  tids ← lift (py_str tid);
  s ← self;
  setattr evo "name" (PStr (get_locale s (locale_key +:+ "_" +:+ Str.zfill 4 tids)));;
  call_method Pokemon_make_stats evo;;
  setattr evo "types" (PList []);;
  typing evo "typeOverride1" "typeOverride2";;
  mons_append evo;;
  attr_append mon "temp_evolutions" evo.

(** The base creature of one [pokemonSettings] record, up to
    [self.mons.append(mon)]. *)
Definition base_mon (forms mon_ids : enum_map) (pattern templateid : string)
    (entry : pyval) : M (pyval * string) :=
  let template := re_sub pattern "" templateid in
  form_id ← lift (enum_get forms (PStr template) (PInt 0));
  mon_id ← lift (enum_get mon_ids (PStr template) (PInt 0));
  mon ← alloc (Pokemon_init entry form_id (PStr template) mon_id);
  id ← getattr mon "id";
  ids ← lift (py_str id);
  let locale_key := "pokemon_name_" +:+ Str.zfill 4 ids in
  s ← self;
  setattr mon "name" (PStr (get_locale s locale_key));;
  raw ← getattr mon "raw";
  qm ← lift (py_get raw "quickMoves" (PList []) ≫= py_iter);
  qm ← for_list qm (λ t, get_move [("template", t)]);
  setattr mon "quick_moves" (PList qm);;
  raw ← getattr mon "raw";
  cm ← lift (py_get raw "cinematicMoves" (PList []) ≫= py_iter);
  cm ← for_list cm (λ t, get_move [("template", t)]);
  setattr mon "charge_moves" (PList cm);;
  typing mon "type" "type2";;
  mons_append mon;;
  mret (mon, locale_key).

Definition pass1 (forms megas mon_ids : enum_map) : M () :=
  let pattern := "^V\d{4}_POKEMON_" in
  gm ← get_gamemaster (pattern +:+ ".*") (Some "pokemonSettings");
  for_each gm (λ te,
    ml ← base_mon forms mon_ids pattern te.1 te.2;
    raw ← getattr ml.1 "raw";
    overrides ← lift (py_get raw "tempEvoOverrides" (PList []) ≫= py_iter);
    for_each overrides (temp_evo_step megas ml.2 ml.1)).

Definition form_step (form_enums : enum_map) (formsettings form : pyval) : M () :=
  ft ← lift (py_get form "form" PNone);
  mon ← get_mon true [("template", ft)];
  mon ← (if negb (truthy mon) then
           base ← lift (py_item formsettings "pokemon");
           mon ← get_mon true [("template", base)];
           mon ← copy mon;
           ty ← lift (index POKEMON_TYPES 1);
           setattr mon "type" ty;;
           ft ← lift (py_get form "form" PNone);
           setattr mon "template" ft;;
           f ← lift (enum_get form_enums ft PNone);
           setattr mon "form" f;;
           mons_append mon;;
           mret mon
         else mret mon);
  asset_value ← lift (py_get form "assetBundleValue" PNone);
  asset_suffix ← lift (py_get form "assetBundleSuffix" PNone);
  if truthy asset_value || truthy asset_suffix then
    setattr mon "asset_value" asset_value;;
    setattr mon "asset_suffix" asset_suffix;;
    call_method Pokemon_gen_asset mon
  else mret ().

Definition pass2 : M () :=
  form_enums ← get_enum "Form" false;
  gm ← get_gamemaster "^FORMS_V\d{4}_POKEMON_.*" (Some "formSettings");
  for_each gm (λ tf,
    forms ← lift (py_get tf.2 "forms" (PList []) ≫= py_iter);
    for_each forms (form_step form_enums tf.2)).

Definition pass3 : M () :=
  evo_gm ← get_gamemaster "^TEMPORARY_EVOLUTION_V\d{4}_POKEMON_.*"
             (Some "temporaryEvolutionSettings");
  for_each evo_gm (λ be,
    base_template ← lift (py_get be.2 "pokemonId" (PStr ""));
    evos ← lift (py_get be.2 "temporaryEvolutions" (PList []) ≫= py_iter);
    for_each evos (λ temp_evo_raw,
      tid ← lift (py_item temp_evo_raw "temporaryEvolutionId");
      mon ← get_mon true [("base_template", base_template);
                          ("temp_evolution_template", tid)];
      asset_value ← lift (py_item temp_evo_raw "assetBundleValue");
      setattr mon "asset_value" asset_value;;
      call_method Pokemon_gen_asset mon)).

(** The body of the loop over [evolutionBranch]: [evo_raw["evolution"]] is
    an argument of [evo_raw.get] and is evaluated before the call. *)
Definition evolution_step (mon evo_raw : pyval) : M () :=
  temporary ← lift (py_in "temporaryEvolution" evo_raw);
  if temporary : bool then mret ()
  else
    match evo_raw with
    | PDict _ =>
        evolution ← lift (py_item evo_raw "evolution");
        target ← lift (py_get evo_raw "form" evolution);
        evo ← get_mon true [("template", target)];
        attr_append mon "evolutions" evo
    | _ => raise AttributeError
    end.

Definition link_evolutions (mon : nat) : M () :=
  raw ← getattr (PRef mon) "raw";
  evolutions ← lift (py_get raw "evolutionBranch" (PList []) ≫= py_iter);
  for_each evolutions (evolution_step (PRef mon)).

Definition pass4 : M () :=
  s ← self; for_each (mons s) link_evolutions.

Definition make_mon_list : M () :=
  modify (set_mons []);;
  forms ← get_enum "Form" false;
  megas ← get_enum "HoloTemporaryEvolutionId" false;
  mon_ids ← get_enum "HoloPokemonId" false;
  pass1 forms megas mon_ids;;
  pass2;;
  pass3;;
  pass4.

(** ** [reload] and [__init__] *)

(** [range(0, n, 2)] *)
Definition range2 (n : nat) : list nat := (λ j, 2 * j)%nat <$> seq 0 (Nat.div2 (S n)).

Definition build_locale (raw_locale : list string) : M () :=
  modify (set_locale ∅);;
  for_each (range2 (length raw_locale)) (λ i,
    v ← lift (index raw_locale (i + 1));
    k ← lift (index raw_locale i);
    modify (λ s, set_locale (<[k := v]> (locale s)) s)).

Definition reload (f : Fetched) : M () :=
  modify (set_raw_protos (f_protos f));;
  modify (set_raw_gamemaster (f_gamemaster f));;
  build_locale (f_locale f);;
  l ← make_item_list; modify (set_items l);;
  l ← make_type_list; modify (set_types l);;
  l ← make_move_list; modify (set_moves l);;
  l ← make_grunt_list; modify (set_grunts l);;
  make_mon_list.

(** The object before [__init__] has run. *)
Definition blank : PogoData := mkPogoData ∅ "" "" [] ∅ [] [] [] [] [] [].

Definition init (icon : string) (f : Fetched) : M () :=
  modify (set_cached_enums ∅);;
  modify (set_icon_url icon);;
  reload f.

End Methods.

(** ** Reference collaborators

    One implementation of the collaborators, for texts of ASCII characters,
    used to run the module on concrete inputs. *)

Module Reference.

(** [str.lower] on a text of ASCII characters: the letters A-Z are folded,
    every other character stays. *)
Definition lower_ascii (c : ascii) : ascii :=
  let n := nat_of_ascii c in
  if ((65 <=? n)%nat && (n <=? 90)%nat)%bool then ascii_of_nat (n + 32) else c.

Fixpoint lower (s : string) : string :=
  match s with
  | EmptyString => EmptyString
  | String c s' => String (lower_ascii c) (lower s')
  end.

(** [re.findall] with [re.IGNORECASE] on an ASCII text, for the pattern of
    [get_enum] when the name is an identifier: the header [enum Name {] is
    then read letter by letter without regard to case, a match runs up to
    the first closing brace, and matches do not overlap. *)
Fixpoint imatch (p s : string) : option (string * string) :=
  match p, s with
  | EmptyString, _ => Some (EmptyString, s)
  | String a p', String b s' =>
      if bool_decide (lower_ascii a = lower_ascii b)
      then (λ mr, (String b mr.1, mr.2)) <$> imatch p' s'
      else None
  | String _ _, EmptyString => None
  end.

Fixpoint upto_brace (s : string) : option string :=
  match s with
  | EmptyString => None
  | String c s' =>
      if bool_decide (c = "}"%char) then Some "}" else String c <$> upto_brace s'
  end.

Definition match_at (pat text : string) : option string :=
  mr ← imatch pat text; blk ← upto_brace mr.2; Some (mr.1 +:+ blk).

Fixpoint findall_go (pat : string) (skip : nat) (text : string) : list string :=
  match text with
  | EmptyString => []
  | String _ t' =>
      match skip with
      | S k => findall_go pat k t'
      | O =>
          match match_at pat text with
          | Some blk => blk :: findall_go pat (String.length blk - 1) t'
          | None => findall_go pat 0 t'
          end
      end
  end.

(** A letter, a digit or the underscore. *)
Definition word_char (c : ascii) : bool :=
  let n := nat_of_ascii c in
  ((65 <=? n)%nat && (n <=? 90)%nat) || ((97 <=? n)%nat && (n <=? 122)%nat) ||
  ((48 <=? n)%nat && (n <=? 57)%nat) || (n =? 95)%nat.

(** The identifier at the start of [s] and what follows it. *)
Fixpoint identifier (s : string) : string * string :=
  match s with
  | String c s' =>
      if word_char c then let (w, r) := identifier s' in (String c w, r)
      else (EmptyString, s)
  | EmptyString => (EmptyString, EmptyString)
  end.

(** A pattern that is not [enum Name {[^}]*}] for an identifier [Name] goes
    beyond this matcher. *)
Definition findall (pattern text : string) : result (list string) :=
  if Str.startswith "enum " pattern then
    let (name, r) := identifier (String.substring 5 (String.length pattern - 5) pattern) in
    if bool_decide (r = " {[^}]*}")
    then Ok (findall_go ("enum " +:+ name +:+ " {") 0 text)
    else Raise (Unmodelled "a regular expression in the name of an enum")
  else Raise (Unmodelled "a regular expression in the name of an enum").

(** The regular expressions that the module itself writes: an optional [^],
    literal characters, [\d{n}] for one digit [n], and [.*] at the end. *)
Inductive tok : Type :=
  | TChar (c : ascii)
  | TDigits (n : nat)
  | TRest.

Fixpoint toks (p : string) : list tok :=
  match p with
  | String "\" (String "d" (String "{" (String n (String "}" r)))) =>
      TDigits (nat_of_ascii n - 48) :: toks r
  | String "." (String "*" r) => TRest :: toks r
  | String c r => TChar c :: toks r
  | EmptyString => []
  end.

Fixpoint digits (n : nat) (s : string) : option string :=
  match n, s with
  | O, _ => Some s
  | S n', String c s' => if Str.digit_val c is Some _ then digits n' s' else None
  | S _, EmptyString => None
  end.

(** The text after a match of [ts] at the start of [s]. *)
Fixpoint match_toks (ts : list tok) (s : string) : option string :=
  match ts with
  | [] => Some s
  | TChar c :: ts' =>
      match s with
      | String a s' => if bool_decide (a = c) then match_toks ts' s' else None
      | EmptyString => None
      end
  | TDigits n :: ts' => s' ← digits n s; match_toks ts' s'
  | TRest :: _ => Some EmptyString
  end.

Fixpoint search_toks (ts : list tok) (s : string) : bool :=
  bool_decide (is_Some (match_toks ts s)) ||
  match s with
  | EmptyString => false
  | String _ s' => search_toks ts s'
  end.

Definition search (pattern s : string) : bool :=
  match pattern with
  | String "^" p => bool_decide (is_Some (match_toks (toks p) s))
  | p => search_toks (toks p) s
  end.

(** [re.sub] for an anchored pattern: at most one match, at the start. *)
Definition sub (pattern repl s : string) : string :=
  match pattern with
  | String "^" p => from_option (λ r, repl +:+ r) s (match_toks (toks p) s)
  | _ => s
  end.

(** Modelled from the spec: the entity factories of [game_objects],
    [moves] and [grunts], which build self-contained entities from the
    records of one family; here an entity keeps the payload of its record
    and its template, without the prefix [strip]. *)
Definition entities (pattern strip : string) (s : PogoData) : list Obj :=
  omap (λ e,
    match py_get e "templateId" (PStr ""), py_get e "data" (PDict []) with
    | Ok (PStr t), Ok d =>
        if search pattern t
        then Some ({[ "template" := PStr (sub strip "" t); "raw" := d ]} : Obj)
        else None
    | _, _ => None
    end) (raw_gamemaster s).

Definition factory (pattern strip : string) : M (list nat) :=
  s ← self; alloc_all (entities pattern strip s).

(** Modelled from the spec: the constructor of [mons.Pokemon], with the
    attributes of the creature entity of the data model; a base creature
    is its own [base_template] and wears no costume. *)
Definition new_pokemon (entry form_id template mon_id : pyval) : Obj :=
  list_to_map
    [ ("raw", entry); ("id", mon_id); ("form", form_id); ("template", template);
      ("base_template", template); ("type", PStr "base"); ("name", PStr "?");
      ("types", PList []); ("quick_moves", PList []); ("charge_moves", PList []);
      ("evolutions", PList []); ("temp_evolutions", PList []); ("costume", PInt 0) ].

Fixpoint shift (n : nat) (v : pyval) : pyval :=
  match v with
  | PRef a => PRef (a + n)
  | PList l => PList (shift n <$> l)
  | PDict d => PDict (prod_map id (shift n) <$> d)
  | _ => v
  end.

(** Modelled from the spec: [Pokemon.copy], a full independent copy.  Every
    object is duplicated at its address plus the size of the store, with
    the references among the duplicates moved along; the duplicates that
    the copy does not reach are referred to by nothing. *)
Definition deepcopy (h : list Obj) (a : nat) : list Obj * nat :=
  (h ++ ((λ o : Obj, shift (length h) <$> o) <$> h), (a + length h)%nat).

(** Modelled from the spec: [Pokemon._gen_asset], which stores an identifier
    composed from the id, form, costume and asset fields; the fields are
    kept side by side. *)
Definition gen_asset (o : Obj) : Obj :=
  <[ "asset" := PList (attr o <$> ["id"; "form"; "costume"; "asset_value"; "asset_suffix"]) ]> o.

Global Instance externals : Externals := {|
  str_lower := lower;
  re_findall := findall;
  re_search := search;
  re_sub := sub;
  POKEMON_TYPES := [PStr "base"; PStr "form"; PStr "temporary evolution"];
  make_item_list := factory "^ITEM_.*" "";
  make_type_list := factory "^POKEMON_TYPE_.*" "";
  make_move_list := factory "^V\d{4}_MOVE_.*" "^V\d{4}_MOVE_";
  make_grunt_list := factory "^CHARACTER_.*" "";
  Pokemon_init := new_pokemon;
  Pokemon_copy := deepcopy;
  Pokemon_make_stats := id; (* the stats are not part of the data model *)
  Pokemon_gen_asset := gen_asset
|}.

End Reference.

(** * Vocabulary of the properties *)

(** The loop of [reload] over the array, two elements at a time. *)
Fixpoint fill (raw : list string) (L : gmap string string)
    : result () * gmap string string :=
  match raw with
  | [] => (Ok (), L)
  | [k] => (Raise IndexError, L)
  | k :: v :: r => fill r (<[k := v]> L)
  end.

Definition locale_step (raw : list string) (i : nat) : M () :=
  v ← lift (index raw (i + 1));
  k ← lift (index raw i);
  modify (λ s, set_locale (<[k := v]> (locale s)) s).

(** The value stored last under [k] at an even position of the array. *)
Fixpoint last_value (raw : list string) (k : string) : option string :=
  match raw with
  | k' :: v :: r =>
      match last_value r k with
      | Some x => Some x
      | None => if decide (k = k') then Some v else None
      end
  | _ => None
  end.

(** The cache [c'] is [c] but for the names that had no usable entry in [c]
    and now have the mapping parsed from the first block that the regular
    expression of [get_enum] finds for them in [text]. *)
Definition cache_grows `{Externals} (text : string)
    (c c' : gmap string (list (string * Z))) : Prop :=
  ∀ k, c' !! k = c !! k ∨
       ((c !! k = None ∨ c !! k = Some []) ∧
        ∃ n blk rest m, str_lower n = k ∧
                        re_findall (enum_pattern n) text = Ok (blk :: rest) ∧
                        parse_enum blk = Ok m ∧ c' !! k = Some m).

Definition same_text `{Externals} (s s' : PogoData) : Prop :=
  raw_protos s' = raw_protos s ∧
  cache_grows (raw_protos s) (cached_enums s) (cached_enums s').

(** A method that leaves the protocol text alone and changes the cache the
    way [get_enum] does. *)
Definition tame `{Externals} {A} (m : M A) : Prop := ∀ s, same_text s (m s).2.

(** The factories use the object through its methods. *)
Definition tame_factories `{Externals} : Prop :=
  tame make_item_list ∧ tame make_type_list ∧
  tame make_move_list ∧ tame make_grunt_list.

(** A sequence of calls [get_enum(name, reverse)], whatever each returns. *)
Fixpoint run_calls `{Externals} (calls : list (string * bool)) (s : PogoData) : PogoData :=
  match calls with
  | [] => s
  | c :: calls => run_calls calls (get_enum c.1 c.2 s).2
  end.

(** [reload] after its first assignment. *)
Definition reload_rest `{Externals} (f : Fetched) : M () :=
  modify (set_raw_gamemaster (f_gamemaster f));;
  build_locale (f_locale f);;
  l ← make_item_list; modify (set_items l);;
  l ← make_type_list; modify (set_types l);;
  l ← make_move_list; modify (set_moves l);;
  l ← make_grunt_list; modify (set_grunts l);;
  make_mon_list.

(** A record of the settings dump: a mapping whose [templateId], when it
    has one, is a string and whose [data], when it has one, is a mapping. *)
Definition record_ok (entry : pyval) : Prop :=
  ∃ d, entry = PDict d ∧
       (dict_get "templateId" d = None ∨ ∃ t, dict_get "templateId" d = Some (PStr t)) ∧
       (dict_get "data" d = None ∨ ∃ p, dict_get "data" d = Some (PDict p)).

(** The template identifier and the payload of a record. *)
Definition template_of (entry : pyval) : string :=
  match py_get entry "templateId" (PStr "") with
  | Ok (PStr t) => t
  | _ => ""
  end.

Definition payload_of (entry : pyval) : list (string * pyval) :=
  match py_get entry "data" (PDict []) with
  | Ok (PDict p) => p
  | _ => []
  end.

(** [select] in the words of the contract, for a subkey that is not the
    empty string. *)
Definition select `{Externals} (pattern : string) (subkey : option string)
    (records : list pyval) : list (string * pyval) :=
  (λ r, (template_of r,
         match subkey with
         | Some k => default (PDict []) (dict_get k (payload_of r))
         | None => PDict (payload_of r)
         end))
  <$> List.filter (λ r, re_search pattern (template_of r)) records.

(** The attribute [name] of the object at [a]. *)
Definition field (s : PogoData) (a : nat) (name : string) : option pyval :=
  obj_at (store s) a !! name.

(** The first creature of the catalog whose template is [t], or [None]. *)
Definition find_mon (s : PogoData) (t : pyval) : pyval :=
  match List.find (λ a, py_eqb (attr (obj_at (store s) a) "template") t) (mons s) with
  | Some a => PRef a
  | None => PNone
  end.

Definition is_temporary (d : list (string * pyval)) : bool :=
  bool_decide (is_Some (dict_get "temporaryEvolution" d)).

(** The template an evolution branch points to: the [form] field when it is
    there, the [evolution] field otherwise. *)
Definition target_template (d : list (string * pyval)) : option pyval :=
  match dict_get "form" d with
  | Some t => Some t
  | None => dict_get "evolution" d
  end.

(** A branch of the settings dump: a mapping that is a temporary evolution
    or carries the [evolution] field. *)
Definition branch_ok (evo_raw : pyval) : Prop :=
  ∃ d, evo_raw = PDict d ∧
       (is_temporary d = true ∨ is_Some (dict_get "evolution" d)).

(** What Pass 4 appends for a list of branches: nothing for a temporary
    evolution, and for any other branch what the search for its target
    template finds. *)
Fixpoint linked (s : PogoData) (branches : list pyval) : list pyval :=
  match branches with
  | [] => []
  | PDict d :: r =>
      if is_temporary d then linked s r
      else
        match target_template d with
        | Some t => find_mon s t :: linked s r
        | None => linked s r
        end
  | _ :: r => linked s r
  end.

(** The branches of the creature at [a]. *)
Definition branches_of (s : PogoData) (a : nat) : option (list pyval) :=
  match field s a "raw" with
  | Some (PDict d) =>
      match default (PList []) (dict_get "evolutionBranch" d) with
      | PList l => Some l
      | _ => None
      end
  | _ => None
  end.

(** Two objects agree on everything Pass 4 reads to resolve a target. *)
Definition same_catalog (s s' : PogoData) : Prop :=
  mons s' = mons s ∧ length (store s') = length (store s) ∧
  ∀ a name, name ≠ "evolutions" → field s' a name = field s a name.

(** ** More vocabulary *)

(** The last key, in insertion order, that the mapping sends to [v]. *)
Fixpoint last_key (final : list (string * Z)) (v : Z) : option string :=
  match final with
  | [] => None
  | (k, v') :: r =>
      match last_key r v with
      | Some k' => Some k'
      | None => if decide (v = v') then Some k else None
      end
  end.










(** [s'] is [s] but for the object at [a]. *)
Definition touch (a : nat) (s s' : PogoData) : Prop :=
  ∃ h, s' = set_store h s ∧ length h = length (store s) ∧
       ∀ b, b ≠ a → obj_at h b = obj_at (store s) b.

(** [sk] is [s] with one more object, at the address [length (store s)], and
    with the same objects elsewhere. *)
Definition one_more (s sk : PogoData) : Prop :=
  set_store (store s) sk = s ∧
  length (store sk) = S (length (store s)) ∧
  ∀ b, b ≠ length (store s) → obj_at (store sk) b = obj_at (store s) b.

(** * Sample data

    A protocol text with the three enums the creature list needs, a
    settings dump with one type, one move, two creatures and one family of
    forms, and a locale array. *)

Module Sample.

Definition block (name : string) (lines : list string) : string :=
  "enum " +:+ name +:+ " {" +:+ Str.NL +:+
  String.concat Str.NL lines +:+ Str.NL +:+ "}" +:+ Str.NL.

Definition protos : string :=
  "syntax = 3;" +:+ Str.NL +:+
  block "Form" ["PIKACHU_NORMAL = 0;"; "PIKACHU_COSPLAY = 1;"] +:+
  block "HoloTemporaryEvolutionId" [Str.TAB +:+ "TEMP_EVOLUTION_MEGA = 1;"] +:+
  block "HoloPokemonId" ["PIKACHU = 25;"; "RAICHU = 26;"].

(** The text of a later release: the second form has another name and
    number. *)
Definition protos_next : string :=
  "syntax = 3;" +:+ Str.NL +:+
  block "Form" ["PIKACHU_NORMAL = 0;"; "PIKACHU_LIBRE = 2;"] +:+
  block "HoloTemporaryEvolutionId" [Str.TAB +:+ "TEMP_EVOLUTION_MEGA = 1;"] +:+
  block "HoloPokemonId" ["PIKACHU = 25;"; "RAICHU = 26;"].

(** The branches of Pikachu: Raichu is in the dump, Gorochu is not. *)
Definition branches : list pyval :=
  [ PDict [("evolution", PStr "RAICHU")];
    PDict [("evolution", PStr "GOROCHU")];
    PDict [("temporaryEvolution", PStr "TEMP_EVOLUTION_MEGA")] ].

Definition pikachu : pyval :=
  PDict
    [ ("type", PStr "POKEMON_TYPE_ELECTRIC");
      ("quickMoves", PList [PStr "THUNDER_SHOCK"]);
      ("tempEvoOverrides",
       PList [PDict [("tempEvoId", PStr "TEMP_EVOLUTION_MEGA");
                     ("typeOverride1", PStr "POKEMON_TYPE_ELECTRIC")]]);
      ("evolutionBranch", PList branches) ].

Definition raichu : pyval := PDict [("type", PStr "POKEMON_TYPE_ELECTRIC")].

Definition record (templateid : string) (data : list (string * pyval)) : pyval :=
  PDict [("templateId", PStr templateid); ("data", PDict data)].

Definition gamemaster : list pyval :=
  [ record "POKEMON_TYPE_ELECTRIC" [];
    record "V0084_MOVE_THUNDER_SHOCK" [];
    record "V0025_POKEMON_PIKACHU" [("pokemonSettings", pikachu)];
    record "V0026_POKEMON_RAICHU" [("pokemonSettings", raichu)];
    record "FORMS_V0025_POKEMON_PIKACHU"
      [("formSettings",
        PDict [("pokemon", PStr "PIKACHU");
               ("forms", PList [PDict [("form", PStr "PIKACHU_NORMAL");
                                       ("assetBundleValue", PInt 3)]])])] ].

Definition locale_array : list string := ["pokemon_name_0025"; "Pikachu"].

Definition fetched : Fetched := mkFetched protos gamemaster locale_array.
Definition fetched_next : Fetched := mkFetched protos_next gamemaster locale_array.

(** The text of a release that has no enum [Form] any more. *)
Definition protos_bare : string :=
  "syntax = 3;" +:+ Str.NL +:+
  block "HoloTemporaryEvolutionId" [Str.TAB +:+ "TEMP_EVOLUTION_MEGA = 1;"] +:+
  block "HoloPokemonId" ["PIKACHU = 25;"; "RAICHU = 26;"].

Definition fetched_bare : Fetched := mkFetched protos_bare gamemaster locale_array.

(** [PogoData()] on the sample data. *)
Definition built : PogoData := (init "" fetched blank).2.

(** A catalog of two creatures on which Pass 4 has not run yet. *)
Definition unlinked : PogoData :=
  mkPogoData ∅ "" "" [] ∅ [] [] [] [] [0; 1]%nat
    [ Reference.new_pokemon pikachu (PInt 0) (PStr "PIKACHU") (PInt 25);
      Reference.new_pokemon raichu (PInt 0) (PStr "RAICHU") (PInt 26) ].

End Sample.

(** * Properties *)

(** ** Reasoning about methods *)

Lemma bind_run {A B} (m : M A) (f : A → M B) s :
  (m ≫= f) s = match m s with
               | (Ok a, s') => f a s'
               | (Raise e, s') => (Raise e, s')
               end.
Proof. reflexivity. Qed.

Lemma bind_ok {A B} (m : M A) (f : A → M B) s b s' :
  (m ≫= f) s = (Ok b, s') ↔ ∃ a s1, m s = (Ok a, s1) ∧ f a s1 = (Ok b, s').
Proof.
  rewrite bind_run. destruct (m s) as [[a|e] s1]; split.
  - eauto.
  - intros (? & ? & [= <- <-] & ?); done.
  - done.
  - intros (? & ? & [=] & ?).
  Qed.

Lemma bind_ret {A B} (a : A) (f : A → M B) s : (mret a ≫= f) s = f a s.
Proof. reflexivity. Qed.

Lemma bind_self {B} (f : PogoData → M B) s : (self ≫= f) s = f s s.
Proof. reflexivity. Qed.

Lemma bind_modify {B} g (f : () → M B) s : (modify g ≫= f) s = f () (g s).
Proof. reflexivity. Qed.

Lemma bind_lift_ok {A B} (a : A) (f : A → M B) s : (lift (Ok a) ≫= f) s = f a s.
Proof. reflexivity. Qed.

Lemma bind_lift_raise {A B} e (f : A → M B) s : (lift (Raise e) ≫= f) s = (Raise e, s).
Proof. reflexivity. Qed.

Lemma bind_raise {A B} e (f : A → M B) s : (raise e ≫= f) s = (Raise e, s).
Proof. reflexivity. Qed.

Lemma bind_assoc {A B C} (m : M A) (f : A → M B) (g : B → M C) s :
  ((m ≫= f) ≫= g) s = (m ≫= λ a, f a ≫= g) s.
Proof. rewrite !bind_run. destruct (m s) as [[a|e] s1]; [by rewrite bind_run|done]. Qed.

(** Run the steps of a method that are known. *)
Ltac mstep :=
  first [ rewrite bind_ret | rewrite bind_self | rewrite bind_modify
        | rewrite bind_lift_ok | rewrite bind_lift_raise | rewrite bind_raise
        | rewrite bind_assoc ].
Ltac msimpl := repeat mstep.

Lemma lift_ok {A} (r : result A) s a s' : lift r s = (Ok a, s') ↔ r = Ok a ∧ s' = s.
Proof. unfold lift. split; [intros [= -> ->] | intros [-> ->]]; done. Qed.

Lemma set_locale_same s : set_locale (locale s) s = s.
Proof. by destruct s. Qed.

Lemma set_store_same s : set_store (store s) s = s.
Proof. by destruct s. Qed.

(** ** LocaleTable *)

Lemma list_pair_ind {A} (P : list A → Prop) :
  P [] → (∀ x, P [x]) → (∀ x y l, P l → P (x :: y :: l)) → ∀ l, P l.
Proof.
  intros H0 H1 H2.
  enough (∀ l, P l ∧ ∀ x, P (x :: l)) as Hl by (intros l; apply Hl).
  induction l as [|y l [IH1 IH2]]; split; auto.
Qed.

Lemma locale_step_ok raw i k v s :
  raw !! i = Some k → raw !! (i + 1)%nat = Some v →
  locale_step raw i s = (Ok (), set_locale (<[k := v]> (locale s)) s).
Proof.
  intros Hk Hv. unfold locale_step. rewrite bind_run. unfold lift at 1, index.
  rewrite Hv. rewrite bind_run. unfold lift at 1. by rewrite Hk.
Qed.

Lemma locale_step_end raw i s :
  raw !! (i + 1)%nat = None → locale_step raw i s = (Raise IndexError, s).
Proof.
  intros Hv. unfold locale_step. rewrite bind_run. unfold lift at 1, index.
  by rewrite Hv.
Qed.

Lemma locale_loop rest : ∀ pre c s,
  length pre = (2 * c)%nat →
  for_each ((λ j, 2 * j)%nat <$> seq c (Nat.div2 (S (length rest))))
    (locale_step (pre ++ rest)) s
  = ((fill rest (locale s)).1, set_locale (fill rest (locale s)).2 s).
Proof.
  induction rest as [|k|k v rest IH] using list_pair_ind; intros pre c s Hpre.
  - simpl. by rewrite set_locale_same.
  - cbn [length Nat.div2 seq fmap list_fmap for_each]. rewrite bind_run.
    rewrite locale_step_end; [simpl; by rewrite set_locale_same|].
    apply lookup_ge_None_2. rewrite length_app. simpl. lia.
  - change (Nat.div2 (S (length (k :: v :: rest)))) with (S (Nat.div2 (S (length rest)))).
    cbn [seq fmap list_fmap for_each]. rewrite bind_run.
    rewrite (locale_step_ok _ _ k v).
    + replace (pre ++ k :: v :: rest) with ((pre ++ [k; v]) ++ rest)
        by (by rewrite <- app_assoc).
      rewrite (IH (pre ++ [k; v]) (S c)).
      * by destruct s.
      * rewrite length_app. simpl. lia.
    + rewrite lookup_app_r by lia. by replace (2 * c - length pre)%nat with 0%nat by lia.
    + rewrite lookup_app_r by lia. by replace (2 * c + 1 - length pre)%nat with 1%nat by lia.
Qed.

Lemma build_locale_fill raw s :
  build_locale raw s = ((fill raw ∅).1, set_locale (fill raw ∅).2 s).
Proof.
  unfold build_locale. rewrite bind_run. unfold modify at 1.
  pose proof (locale_loop raw [] 0 (set_locale ∅ s) eq_refl) as Hl.
  rewrite app_nil_l in Hl. unfold range2. fold (locale_step raw). rewrite Hl.
  by destruct s.
Qed.

Lemma fill_odd raw : ∀ L, Nat.Odd (length raw) → (fill raw L).1 = Raise IndexError.
Proof.
  induction raw as [|k|k v raw IH] using list_pair_ind; intros L Hodd.
  - destruct Hodd as [m Hm]. simpl in Hm. lia.
  - done.
  - apply IH. destruct Hodd as [m Hm]. simpl in Hm. exists (m - 1)%nat. lia.
Qed.

Lemma fill_even raw : ∀ L, Nat.Even (length raw) →
  (fill raw L).1 = Ok () ∧
  ∀ k, (fill raw L).2 !! k = match last_value raw k with Some x => Some x | None => L !! k end.
Proof.
  induction raw as [|k|k v raw IH] using list_pair_ind; intros L Hev.
  - done.
  - destruct Hev as [m Hm]. simpl in Hm. lia.
  - destruct (IH (<[k:=v]> L)) as [Hok Hl].
    { destruct Hev as [m Hm]. simpl in Hm. exists (m - 1)%nat. lia. }
    split; [done|]. intros k0. cbn [fill last_value]. rewrite Hl.
    destruct (last_value raw k0); [done|].
    rewrite lookup_insert. destruct (decide (k0 = k)); subst.
    + by rewrite decide_True.
    + by rewrite decide_False.
Qed.

Lemma last_value_at raw : ∀ k i v,
  Nat.Even (length raw) → Nat.Even i →
  raw !! i = Some k → raw !! S i = Some v →
  (∀ j, (i < j)%nat → Nat.Even j → raw !! j ≠ Some k) →
  last_value raw k = Some v.
Proof.
  induction raw as [|k'|k' v' raw IH] using list_pair_ind; intros k i v Hlen Hi Hk Hv Hlast.
  - done.
  - destruct Hlen as [m Hm]. simpl in Hm. lia.
  - cbn [last_value]. destruct i as [|[|i]].
    + simpl in Hk, Hv. injection Hk as ->. injection Hv as ->.
      destruct (last_value raw k) eqn:Hl.
      * exfalso. clear IH.
        assert (∃ j, Nat.Even j ∧ raw !! j = Some k) as (j & Hj & Hjk).
        { clear -Hl. induction raw as [|?|a b raw IH] using list_pair_ind; try done.
          cbn [last_value] in Hl. destruct (last_value raw k) eqn:Hr.
          - destruct IH as (j & Hj & Hjk); [done|]. exists (S (S j)). split; [|done].
            destruct Hj as [m ->]. exists (S m). lia.
          - destruct (decide (k = a)) as [->|]; [|done].
            exists 0%nat. split; [by exists 0%nat|done]. }
        apply (Hlast (S (S j))); [lia| |done].
        destruct Hj as [m ->]. exists (S m). lia.
      * by rewrite decide_True.
    + destruct Hi as [m Hm]. lia.
    + rewrite (IH k i v); [done| | |done|done|].
      * destruct Hlen as [m Hm]. simpl in Hm. exists (m - 1)%nat. lia.
      * destruct Hi as [m Hm]. exists (m - 1)%nat. lia.
      * intros j Hj Hje. apply (Hlast (S (S j))); [lia|].
        destruct Hje as [m ->]. exists (S m). lia.
Qed.

Lemma last_value_none raw : ∀ k,
  (∀ i, Nat.Even i → raw !! i ≠ Some k) → last_value raw k = None.
Proof.
  induction raw as [|k'|k' v' raw IH] using list_pair_ind; intros k Hk; try done.
  cbn [last_value]. rewrite IH.
  - rewrite decide_False; [done|]. intros ->. by apply (Hk 0%nat); [exists 0%nat|].
  - intros i [m ->]. apply (Hk (S (S (2 * m)))). exists (S m). lia.
Qed.

(** ** EnumIndex *)

Section EnumFacts.
Context `{Externals}.

Lemma get_enum_hit enum reverse s e l :
  cached_enums s !! str_lower enum = Some (e :: l) →
  get_enum enum reverse s = (Ok (Fwd (e :: l)), s).
Proof. intros Hc. unfold get_enum. rewrite bind_run. simpl. by rewrite Hc. Qed.

Lemma get_enum_miss enum reverse s :
  (cached_enums s !! str_lower enum = None ∨ cached_enums s !! str_lower enum = Some []) →
  get_enum enum reverse s =
    match re_findall (enum_pattern enum) (raw_protos s) with
    | Raise e => (Raise e, s)
    | Ok [] => (Raise (KeyError ("Could not find Enum " +:+ enum)), s)
    | Ok (proto :: _) =>
        match parse_enum proto with
        | Ok final =>
            (Ok (if reverse then Rev (invert final) else Fwd final),
             set_cached_enums (<[str_lower enum := final]> (cached_enums s)) s)
        | Raise e => (Raise e, s)
        end
    end.
Proof.
  intros Hc. unfold get_enum. rewrite bind_run. simpl.
  destruct Hc as [-> | ->]; rewrite bind_run; unfold lift;
    (destruct (re_findall _ _) as [[|proto rest]|]; [done| |done]);
    rewrite bind_run; by destruct (parse_enum _).
Qed.

(** *** What a method may do to the enum cache

    Between two assignments of [raw_protos] the cache changes in one way
    only: a name without a usable entry gets the mapping parsed from the
    current text. *)

Lemma same_text_refl s : same_text s s.
Proof. split; [done|]. intros k. by left. Qed.

Lemma same_text_trans s1 s2 s3 : same_text s1 s2 → same_text s2 s3 → same_text s1 s3.
Proof.
  intros [Hp1 Hc1] [Hp2 Hc2]. split; [congruence|]. intros k.
  rewrite Hp1 in Hc2. destruct (Hc2 k) as [H2 | [H2 H2']].
  - rewrite H2. apply Hc1.
  - destruct (Hc1 k) as [H1 | [H1 _]].
    + right. by rewrite <- H1.
    + right. done.
Qed.

Lemma same_text_fields s s' :
  raw_protos s' = raw_protos s → cached_enums s' = cached_enums s → same_text s s'.
Proof. intros Hp Hc. split; [done|]. intros k. left. by rewrite Hc. Qed.

Lemma tame_ret {A} (a : A) : tame (mret a : M A).
Proof. intros s. apply same_text_refl. Qed.

Lemma tame_bind {A B} (m : M A) (f : A → M B) :
  tame m → (∀ a, tame (f a)) → tame (m ≫= f).
Proof.
  intros Hm Hf s. rewrite bind_run. specialize (Hm s).
  destruct (m s) as [[a|e] s1]; [|done].
  eapply same_text_trans; [apply Hm|apply Hf].
Qed.

Lemma tame_raise {A} e : tame (raise e : M A).
Proof. intros s. apply same_text_refl. Qed.

Lemma tame_lift {A} (r : result A) : tame (lift r).
Proof. intros s. apply same_text_refl. Qed.

Lemma tame_self : tame self.
Proof. intros s. apply same_text_refl. Qed.

Lemma tame_modify f :
  (∀ s, raw_protos (f s) = raw_protos s ∧ cached_enums (f s) = cached_enums s) →
  tame (modify f).
Proof. intros Hf s. apply same_text_fields; apply Hf. Qed.

Lemma tame_for_each {A} (l : list A) (body : A → M ()) :
  (∀ x, tame (body x)) → tame (for_each l body).
Proof.
  intros Hb. induction l as [|x l IH]; [apply tame_ret|].
  simpl. apply tame_bind; [apply Hb|by intros _].
Qed.

Lemma tame_for_list {A B} (l : list A) (f : A → M B) :
  (∀ x, tame (f x)) → tame (for_list l f).
Proof.
  intros Hf. induction l as [|x l IH]; [apply tame_ret|].
  simpl. apply tame_bind; [apply Hf|intros y].
  apply tame_bind; [apply IH|intros ys; apply tame_ret].
Qed.

Lemma tame_getattr v name : tame (getattr v name).
Proof.
  intros s. unfold getattr. repeat case_match; apply same_text_refl.
Qed.

Lemma tame_setattr v name x : tame (setattr v name x).
Proof.
  intros s. unfold setattr. case_match; try apply same_text_refl.
  by apply same_text_fields.
Qed.

Lemma tame_alloc o : tame (alloc o).
Proof. intros s. by apply same_text_fields. Qed.

Lemma tame_alloc_all l : tame (alloc_all l).
Proof. intros s. by apply same_text_fields. Qed.

Lemma tame_get_enum enum reverse : tame (get_enum enum reverse).
Proof.
  intros s.
  assert (cached_enums s !! str_lower enum = None ∨
          cached_enums s !! str_lower enum = Some [] ∨
          ∃ e l, cached_enums s !! str_lower enum = Some (e :: l)) as [Hc | [Hc | (e & l & Hc)]].
  { destruct (cached_enums s !! str_lower enum) as [[|e l]|]; eauto. }
  3: { rewrite (get_enum_hit _ _ _ e l) by done. apply same_text_refl. }
  all: rewrite get_enum_miss by auto;
    (destruct (re_findall (enum_pattern enum) (raw_protos s)) as [[|blk rest]|] eqn:Hf;
      [apply same_text_refl| |apply same_text_refl]);
    (destruct (parse_enum blk) as [m|] eqn:Hp; [|apply same_text_refl]);
    (split; [done|]); intros k; simpl;
    (destruct (decide (k = str_lower enum)) as [->|Hk];
      [right; split; [auto|]; exists enum, blk, rest, m; by rewrite lookup_insert_eq
      |left; by rewrite lookup_insert_ne]).
Qed.

End EnumFacts.

Create HintDb tame discriminated.
#[global] Hint Resolve tame_ret tame_raise tame_lift tame_self tame_getattr tame_setattr
  tame_alloc tame_alloc_all tame_get_enum : tame.

(** One step through the text of a method. *)
Ltac tame_step :=
  match goal with
  | |- tame (_ ≫= _) => apply tame_bind; [|intros ?]
  | |- tame (modify _) => apply tame_modify; intros []; done
  | |- tame (for_each _ _) => apply tame_for_each; intros ?
  | |- tame (for_list _ _) => apply tame_for_list; intros ?
  | |- tame (match ?x with _ => _ end) => destruct x
  | |- tame (let (_, _) := ?x in _) => destruct x
  | |- _ => solve [auto with tame]
  end.
Ltac tame_auto := repeat tame_step.

Section Tame.
Context `{Externals}.

Lemma tame_copy v : tame (copy v).
Proof.
  intros s. unfold copy. destruct v; try apply same_text_refl.
  destruct (Pokemon_copy (store s) a). by apply same_text_fields.
Qed.

Lemma tame_call_method f v : tame (call_method f v).
Proof.
  intros s. unfold call_method. destruct v; try apply same_text_refl.
  by apply same_text_fields.
Qed.
Hint Resolve tame_copy tame_call_method : tame.

Lemma tame_attr_append v name x : tame (attr_append v name x).
Proof. unfold attr_append. tame_auto. Qed.
Hint Resolve tame_attr_append : tame.

Lemma tame_get_mon get_one args : tame (get_mon get_one args).
Proof. unfold get_mon. tame_auto. Qed.

Lemma tame_get_type args : tame (get_type args).
Proof. unfold get_type. tame_auto. Qed.

Lemma tame_get_move args : tame (get_move args).
Proof. unfold get_move. tame_auto. Qed.
Hint Resolve tame_get_mon tame_get_type tame_get_move : tame.

Lemma tame_typing mon a b : tame (typing mon a b).
Proof. unfold typing. tame_auto. Qed.

Lemma tame_mons_append mon : tame (mons_append mon).
Proof. unfold mons_append. tame_auto. Qed.

Lemma tame_get_gamemaster pattern settings : tame (get_gamemaster pattern settings).
Proof. unfold get_gamemaster. tame_auto. Qed.
Hint Resolve tame_typing tame_mons_append tame_get_gamemaster : tame.

Lemma tame_temp_evo_step megas key mon temp_evo : tame (temp_evo_step megas key mon temp_evo).
Proof. unfold temp_evo_step. tame_auto. Qed.

Lemma tame_base_mon forms mon_ids pattern templateid entry :
  tame (base_mon forms mon_ids pattern templateid entry).
Proof. unfold base_mon. tame_auto. Qed.
Hint Resolve tame_temp_evo_step tame_base_mon : tame.

Lemma tame_pass1 forms megas mon_ids : tame (pass1 forms megas mon_ids).
Proof. unfold pass1. tame_auto. Qed.

Lemma tame_form_step form_enums formsettings form :
  tame (form_step form_enums formsettings form).
Proof. unfold form_step. tame_auto. Qed.
Hint Resolve tame_pass1 tame_form_step : tame.

Lemma tame_pass2 : tame pass2.
Proof. unfold pass2. tame_auto. Qed.

Lemma tame_pass3 : tame pass3.
Proof. unfold pass3. tame_auto. Qed.

Lemma tame_evolution_step mon evo_raw : tame (evolution_step mon evo_raw).
Proof. unfold evolution_step. tame_auto. Qed.
Hint Resolve tame_pass2 tame_pass3 tame_evolution_step : tame.

Lemma tame_link_evolutions mon : tame (link_evolutions mon).
Proof. unfold link_evolutions. tame_auto. Qed.
Hint Resolve tame_link_evolutions : tame.

Lemma tame_pass4 : tame pass4.
Proof. unfold pass4. tame_auto. Qed.
Hint Resolve tame_pass4 : tame.

Lemma tame_make_mon_list : tame make_mon_list.
Proof. unfold make_mon_list. tame_auto. Qed.

Lemma tame_build_locale raw : tame (build_locale raw).
Proof. unfold build_locale. tame_auto. Qed.

End Tame.

Section Reload.
Context `{Externals}.

Lemma run_calls_same_text calls : ∀ s, same_text s (run_calls calls s).
Proof.
  induction calls as [|c calls IH]; intros s; [apply same_text_refl|].
  simpl. eapply same_text_trans; [apply tame_get_enum|apply IH].
Qed.

Lemma cache_grows_keeps text c c' k e l :
  cache_grows text c c' → c !! k = Some (e :: l) → c' !! k = Some (e :: l).
Proof. intros Hg Hk. destruct (Hg k) as [-> | [[Hn | Hn] _]]; congruence. Qed.

Lemma reload_split f s : reload f s = reload_rest f (set_raw_protos (f_protos f) s).
Proof. reflexivity. Qed.

Lemma tame_reload_rest f : tame_factories → tame (reload_rest f).
Proof.
  intros (Hi & Ht & Hm & Hg). unfold reload_rest.
  pose proof tame_make_mon_list. pose proof tame_build_locale. tame_auto.
Qed.

Lemma reload_protos f s : tame_factories → raw_protos (reload f s).2 = f_protos f.
Proof.
  intros Hf. rewrite reload_split.
  by destruct (tame_reload_rest f Hf (set_raw_protos (f_protos f) s)) as [-> _].
Qed.

Lemma reload_cache f s :
  tame_factories →
  cache_grows (f_protos f) (cached_enums s) (cached_enums (reload f s).2).
Proof.
  intros Hf. rewrite reload_split.
  by destruct (tame_reload_rest f Hf (set_raw_protos (f_protos f) s)) as [_ Hg].
Qed.

(** [reload] leaves every usable entry of the cache where it is. *)
Lemma reload_keeps_cache f s k e l :
  tame_factories →
  cached_enums s !! k = Some (e :: l) →
  cached_enums (reload f s).2 !! k = Some (e :: l).
Proof. intros Hf Hk. eapply cache_grows_keeps; [by apply reload_cache|done]. Qed.

Lemma init_split icon f s :
  init icon f s = reload f (set_icon_url icon (set_cached_enums ∅ s)).
Proof. reflexivity. Qed.

(** Without a usable entry in the cache, a name for which the regular
    expression finds no block gets [KeyError], and the object stays as it
    is: the next call raises again. *)
Lemma get_enum_raises enum reverse s :
  (cached_enums s !! str_lower enum = None ∨ cached_enums s !! str_lower enum = Some []) →
  re_findall (enum_pattern enum) (raw_protos s) = Ok [] →
  get_enum enum reverse s = (Raise (KeyError ("Could not find Enum " +:+ enum)), s).
Proof. intros Hc Hf. rewrite get_enum_miss by done. by rewrite Hf. Qed.

End Reload.

(** ** QueryIndex *)

Lemma dict_get_set {V} (k : string) (v : V) d : dict_get k (dict_set k v d) = Some v.
Proof.
  induction d as [|[k' v'] d IH]; simpl.
  - by rewrite decide_True.
  - destruct (decide (k = k')) as [->|Hk]; simpl.
    + by rewrite decide_True.
    + by rewrite decide_False.
Qed.

Lemma dict_get_elem {V} (k : string) (v : V) d : dict_get k d = Some v → (k, v) ∈ d.
Proof.
  induction d as [|[k' v'] d IH]; simpl; [done|].
  destruct (decide (k = k')) as [->|Hk].
  - intros [= ->]. left.
  - intros Hd. right. auto.
Qed.

Lemma startswith_app p t : Str.startswith p (p +:+ t) = true.
Proof. induction p as [|c p IH]; simpl; [done|]. by rewrite bool_decide_eq_true_2. Qed.

Lemma wanted_false o args k v :
  (k, v) ∈ args → py_eqb (attr o k) v = false → wanted o args = false.
Proof.
  intros Hin Hne. unfold wanted. apply not_true_is_false. intros Hall.
  rewrite forallb_forall in Hall. apply list_elem_of_In in Hin.
  specialize (Hall _ Hin). simpl in Hall. congruence.
Qed.

Lemma get_object_go_none h l args final :
  (∀ a, a ∈ l → wanted (obj_at h a) args = false) →
  get_object_go h l args true final = PNone.
Proof.
  induction l as [|a l IH]; intros Hl; [done|]. simpl.
  rewrite Hl by left. apply IH. intros b Hb. apply Hl. by right.
Qed.

Section Finders.
Context `{Externals}.

(** A positive costume among the criteria is matched against the stored
    attribute like any other criterion: unless some creature of the
    catalog already wears it, nothing is found and [mon.copy()] fails. *)
Lemma get_mon_costume_raises s args c :
  dict_get "costume" args = Some (PInt c) → 0 < c →
  (∀ a, a ∈ mons s → py_eqb (attr (obj_at (store s) a) "costume") (PInt c) = false) →
  get_mon true args s = (Raise AttributeError, s).
Proof.
  intros Hc Hpos Hno. unfold get_mon. msimpl.
  rewrite Hc. simpl default. unfold py_gt0. rewrite bool_decide_eq_true_2 by done.
  msimpl. unfold get_object. rewrite get_object_go_none.
  - done.
  - intros a Ha. eapply wanted_false; [by apply dict_get_elem|by apply Hno].
Qed.

Lemma get_mon_plain get_one args s :
  dict_get "costume" args = None →
  get_mon get_one args s = (Ok (get_object (store s) (mons s) args get_one), s).
Proof. intros Hc. unfold get_mon. msimpl. rewrite Hc. simpl. by msimpl. Qed.

(** C10. [get_type] called with a template that does not start with
    [POKEMON_TYPE_] searches the types with the prefixed template, so the
    short and the full template find the same entity; [get_item],
    [get_move], [get_grunt] and [get_mon] search with the criteria they
    were given. *)
Theorem get_type_prefixes_template (s : PogoData) (args : list (string * pyval))
    (t : string) :
  dict_get "template" args = Some (PStr t) →
  Str.startswith "POKEMON_TYPE_" t = false →
  let full := dict_set "template" (PStr ("POKEMON_TYPE_" +:+ t)) args in
  get_type args s = (Ok (get_object (store s) (types s) full true), s) ∧
  get_type full s = get_type args s ∧
  get_type [("template", PStr t)] s
    = get_type [("template", PStr ("POKEMON_TYPE_" +:+ t))] s ∧
  get_item args s = (Ok (get_object (store s) (items s) args true), s) ∧
  get_move args s = (Ok (get_object (store s) (moves s) args true), s) ∧
  get_grunt args s = (Ok (get_object (store s) (grunts s) args true), s) ∧
  ∀ get_one, dict_get "costume" args = None →
    get_mon get_one args s = (Ok (get_object (store s) (mons s) args get_one), s).
Proof.
  intros Ht Hs full.
  assert (∀ a, dict_get "template" a = Some (PStr t) →
    get_type a s = (Ok (get_object (store s) (types s)
      (dict_set "template" (PStr ("POKEMON_TYPE_" +:+ t)) a) true), s)) as Hshort.
  { intros a Ha. unfold get_type. rewrite Ha, Hs. simpl negb. cbv iota. by msimpl. }
  assert (∀ a, dict_get "template" a = Some (PStr ("POKEMON_TYPE_" +:+ t)) →
    get_type a s = (Ok (get_object (store s) (types s) a true), s)) as Hfull.
  { intros a Ha. unfold get_type. rewrite Ha, startswith_app. simpl negb. cbv iota.
    by msimpl. }
  repeat split.
  - by apply Hshort.
  - rewrite (Hshort args Ht). rewrite Hfull by apply dict_get_set.
    done.
  - rewrite (Hshort [("template", PStr t)]) by done. by rewrite Hfull.
  - intros get_one. apply get_mon_plain.
Qed.

End Finders.

(** ** RecordSource *)

Section Records.
Context `{Externals}.

Lemma result_bind_ok {A B} (a : A) (f : A → result B) : Ok a ≫= f = f a.
Proof. reflexivity. Qed.

Lemma select_cons pattern subkey r records :
  select pattern subkey (r :: records)
  = if re_search pattern (template_of r)
    then (template_of r,
          match subkey with
          | Some k => default (PDict []) (dict_get k (payload_of r))
          | None => PDict (payload_of r)
          end) :: select pattern subkey records
    else select pattern subkey records.
Proof. unfold select. cbn [List.filter]. by destruct (re_search _ _). Qed.

Lemma gamemaster_go_select pattern subkey records :
  subkey ≠ Some "" → Forall record_ok records →
  ∀ found, gamemaster_go pattern subkey records found
           = Ok (found ++ select pattern subkey records).
Proof.
  intros Hk Hall. induction Hall as [|r records Hr _ IH]; intros found.
  - simpl. by rewrite app_nil_r.
  - destruct Hr as (d & -> & Ht & Hd).
    assert (∃ t, default (PStr "") (dict_get "templateId" d) = PStr t) as [t Et].
    { destruct Ht as [Ht | [t Ht]]; rewrite Ht; simpl; eauto. }
    assert (∃ p, default (PDict []) (dict_get "data" d) = PDict p) as [p Ep].
    { destruct Hd as [Hd | [p Hd]]; rewrite Hd; simpl; eauto. }
    rewrite select_cons. unfold template_of, payload_of.
    cbn [gamemaster_go py_get]. rewrite Et, Ep. cbn [mbind result_bind].
    destruct (re_search pattern t); [|apply IH].
    cbn [py_get mbind result_bind].
    destruct subkey as [k|].
    + simpl given. rewrite bool_decide_eq_false_2 by congruence.
      cbn [negb default from_option id]. rewrite result_bind_ok, IH.
      by rewrite <- app_assoc.
    + simpl given. cbv iota. rewrite result_bind_ok, IH. by rewrite <- app_assoc.
Qed.

(** The empty string as subkey is no subkey. *)
Lemma gamemaster_go_empty pattern records found :
  gamemaster_go pattern (Some "") records found
  = gamemaster_go pattern None records found.
Proof.
  revert found. induction records as [|r records IH]; intros found; [done|].
  cbn [gamemaster_go].
  destruct (py_get r "templateId" (PStr "")) as [[| | |t| | |]|]; try done.
  cbn [mbind result_bind]. destruct (re_search pattern t); [|apply IH].
  destruct (py_get r "data" (PDict [])) as [data|]; [|done].
  cbn [mbind result_bind given]. rewrite bool_decide_eq_true_2 by done.
  cbn [negb mbind result_bind]. apply IH.
Qed.

(** C9, amended. On a settings dump of records, [get_gamemaster] returns, in
    the order of the dump, the records whose [templateId] the pattern
    matches somewhere; given no subkey the data is the whole payload, and
    given a non-empty subkey it is the value of the payload at the subkey,
    or an empty mapping when the payload has none; given the empty string
    as subkey, the call returns what it returns given no subkey, the whole
    payloads. *)
Theorem get_gamemaster_selects (pattern : string) (subkey : option string)
    (s : PogoData) :
  Forall record_ok (raw_gamemaster s) →
  (subkey ≠ Some "" →
   get_gamemaster pattern subkey s
     = (Ok (select pattern subkey (raw_gamemaster s)), s)) ∧
  get_gamemaster pattern (Some "") s
    = (Ok (select pattern None (raw_gamemaster s)), s).
Proof.
  intros Hall. unfold get_gamemaster. msimpl. split.
  - intros Hk. by rewrite gamemaster_go_select.
  - by rewrite gamemaster_go_empty, gamemaster_go_select.
Qed.

(** C8. When the locale array has an odd number of elements, [reload]
    raises [IndexError] to its caller: the loop that fills the table reads
    past the end of the array at the last key, and no list of the catalog
    has been rebuilt by then. *)
Theorem reload_odd_locale_raises (f : Fetched) (s : PogoData) :
  Nat.Odd (length (f_locale f)) →
  ∃ s', reload f s = (Raise IndexError, s') ∧
        items s' = items s ∧ types s' = types s ∧ moves s' = moves s ∧
        grunts s' = grunts s ∧ mons s' = mons s.
Proof.
  intros Hodd. unfold reload. msimpl. rewrite bind_run, build_locale_fill.
  rewrite fill_odd by done. eexists. split; [reflexivity|]. by destruct s.
Qed.

End Records.

(** ** LocaleTable *)

(** On an array of even length the table is built without an exception, and
    [get_locale] answers with the value that follows the last key of the
    array that is the query key in lower case, letter for letter, or with
    the question mark when the array has no such key: the keys of the
    array are stored and compared as they are. *)
Lemma get_locale_lower_key `{Externals} (raw : list string) (s : PogoData) :
  Nat.Even (length raw) →
  ∃ s', build_locale raw s = (Ok (), s') ∧
    ∀ key,
      (∀ i v, Nat.Even i →
         raw !! i = Some (str_lower key) → raw !! S i = Some v →
         (∀ j, (i < j)%nat → Nat.Even j → raw !! j ≠ Some (str_lower key)) →
         get_locale s' key = v) ∧
      ((∀ i, Nat.Even i → raw !! i ≠ Some (str_lower key)) →
         get_locale s' key = "?") ∧
      (∀ key', str_lower key' = str_lower key →
         get_locale s' key' = get_locale s' key).
Proof.
  intros Hev. rewrite build_locale_fill.
  destruct (fill_even raw ∅ Hev) as [Hok Hl]. rewrite Hok.
  eexists. split; [reflexivity|]. intros key. unfold get_locale.
  replace (locale (set_locale (fill raw ∅).2 s)) with (fill raw ∅).2 by by destruct s.
  repeat split.
  - intros i v Hi Hk Hv Hlast. rewrite Hl.
    by rewrite (last_value_at raw _ i v).
  - intros Hno. rewrite Hl. by rewrite last_value_none.
  - intros key' Hk. by rewrite Hk.
Qed.

(** ** CreatureGraphBuilder *)

Lemma obj_at_alter f h a :
  (a < length h)%nat → obj_at (alter f a h) a = f (obj_at h a).
Proof.
  intros Ha. unfold obj_at. rewrite list_lookup_alter_eq.
  destruct (lookup_lt_is_Some_2 h a Ha) as [o ->]. done.
Qed.

Lemma obj_at_alter_ne f h a b : a ≠ b → obj_at (alter f a h) b = obj_at h b.
Proof. intros Hab. unfold obj_at. by rewrite list_lookup_alter_ne. Qed.

Lemma getattr_ok v name s x s' :
  getattr v name s = (Ok x, s') →
  s' = s ∧ ∃ a, v = PRef a ∧ obj_at (store s) a !! name = Some x.
Proof.
  unfold getattr. destruct v; try done.
  destruct (obj_at (store s) a !! name) eqn:Ho; [|done].
  intros [= <- <-]. eauto.
Qed.

Lemma setattr_ok v name x s s' :
  setattr v name x s = (Ok (), s') →
  ∃ a, v = PRef a ∧ s' = set_store (alter (insert name x) a (store s)) s.
Proof. unfold setattr. destruct v; try done. intros [= <-]. eauto. Qed.

Lemma for_list_pure {A B} (f : A → M B) l :
  (∀ x s, (f x s).2 = s) → ∀ s, (for_list l f s).2 = s.
Proof.
  intros Hf. induction l as [|x l IH]; intros s; [done|].
  simpl. rewrite bind_run. specialize (Hf x s).
  destruct (f x s) as [[y|e] s1]; simpl in Hf; subst; [|done].
  rewrite bind_run. specialize (IH s).
  destruct (for_list l f s) as [[ys|e] s2]; simpl in IH; by subst.
Qed.

Lemma get_move_pure args s : (get_move args s).2 = s.
Proof. reflexivity. Qed.

Lemma get_type_pure args s : (get_type args s).2 = s.
Proof.
  unfold get_type. rewrite bind_run.
  destruct (dict_get "template" args) as [[]|]; try done.
  by destruct (negb _).
Qed.

Lemma field_setattr s a b name name' x :
  (a < length (store s))%nat →
  field (set_store (alter (insert name x) a (store s)) s) b name'
  = if decide (a = b ∧ name = name') then Some x else field s b name'.
Proof.
  intros Ha. unfold field. replace (store (set_store _ s)) with
    (alter (insert name x) a (store s)) by by destruct s.
  destruct (decide (a = b)) as [<-|Hab].
  - rewrite obj_at_alter by done. rewrite lookup_insert.
    destruct (decide (name = name')); [by rewrite decide_True|].
    rewrite decide_False; [done|tauto].
  - rewrite obj_at_alter_ne by done. rewrite decide_False; [done|tauto].
Qed.

Lemma store_setattr s a name x :
  length (store (set_store (alter (insert name x) a (store s)) s)) = length (store s).
Proof. destruct s. simpl. by rewrite length_alter. Qed.

(** One round of the loop of [__typing]. *)
Lemma typing_round mon t s s' l :
  (mon < length (store s))%nat →
  field s mon "types" = Some (PList l) →
  (if truthy t
   then t' ← get_type [("template", t)]; attr_append (PRef mon) "types" t'
   else mret ()) s = (Ok (), s') →
  ∃ ts, field s' mon "types" = Some (PList (l ++ ts)) ∧
        length ts = (if truthy t then 1 else 0)%nat ∧
        length (store s') = length (store s) ∧
        field s' mon "raw" = field s mon "raw".
Proof.
  intros Hlen Hty. destruct (truthy t).
  - intros Hrun. apply bind_ok in Hrun as (t' & s1 & Hg & Hrun).
    pose proof (get_type_pure [("template", t)] s) as Hp. rewrite Hg in Hp.
    simpl in Hp. subst s1.
    unfold attr_append in Hrun. apply bind_ok in Hrun as (v & s1 & Hga & Hrun).
    apply getattr_ok in Hga as (-> & a & [= <-] & Hv).
    unfold field in Hty. rewrite Hty in Hv. injection Hv as <-.
    apply setattr_ok in Hrun as (a & [= <-] & ->).
    exists [t']. rewrite !field_setattr by done. rewrite store_setattr.
    rewrite decide_True by done. rewrite decide_False by (intros [_ ?]; done).
    done.
  - intros [= <-]. exists []. by rewrite app_nil_r.
Qed.

Lemma typing_types mon r1 r2 s s' l :
  (mon < length (store s))%nat →
  field s mon "types" = Some (PList l) →
  typing (PRef mon) r1 r2 s = (Ok (), s') →
  ∃ d ts, field s mon "raw" = Some (PDict d) ∧
    field s' mon "types" = Some (PList (l ++ ts)) ∧
    length ts = ((if truthy (default PNone (dict_get r1 d)) then 1 else 0) +
                 (if truthy (default PNone (dict_get r2 d)) then 1 else 0))%nat.
Proof.
  intros Hlen Hty Hrun. unfold typing in Hrun.
  apply bind_ok in Hrun as (raw & s1 & Hraw & Hrun).
  apply getattr_ok in Hraw as (-> & a & [= <-] & Hraw).
  apply bind_ok in Hrun as (t1 & s1 & H1 & Hrun). apply lift_ok in H1 as [H1 ->].
  apply bind_ok in Hrun as (t2 & s1 & H2 & Hrun). apply lift_ok in H2 as [H2 ->].
  destruct raw as [| | | | |d|]; try done.
  simpl in H1, H2. injection H1 as <-. injection H2 as <-.
  cbn [for_each] in Hrun.
  apply bind_ok in Hrun as ([] & s1 & Hr1 & Hrun).
  apply bind_ok in Hrun as ([] & s2 & Hr2 & Hrun).
  injection Hrun as <-.
  destruct (typing_round _ _ _ _ _ Hlen Hty Hr1) as (ts1 & Hty1 & Hl1 & Hlen1 & Hraw1).
  rewrite <- Hlen1 in Hlen.
  destruct (typing_round _ _ _ _ _ Hlen Hty1 Hr2) as (ts2 & Hty2 & Hl2 & _ & _).
  exists d, (ts1 ++ ts2). rewrite length_app, Hl1, Hl2, app_assoc. done.
Qed.

Lemma field_alloc s o name :
  field (set_store (store s ++ [o]) s) (length (store s)) name = o !! name.
Proof.
  unfold field, obj_at. replace (store (set_store _ s)) with (store s ++ [o])
    by by destruct s.
  by rewrite lookup_app_r, Nat.sub_diag.
Qed.

Lemma field_set_mons s l a name : field (set_mons l s) a name = field s a name.
Proof. by destruct s. Qed.

Section Pass1.
Context `{Externals}.

(** C6, amended. The creature that Pass 1 builds from a settings record and
    appends to the catalog has at most two types: one for each of the
    fields [type] and [type2] of the record that holds a true value.  When
    the primary field holds one, there is exactly one type if and only if
    the secondary field is absent, null or false in another way, such as an
    empty string.  The constructor is taken to keep the record under [raw]
    and to start with no types. *)
Theorem base_mon_types (forms mon_ids : enum_map) (pattern templateid : string)
    (entry mon : pyval) (key : string) (s s' : PogoData) :
  (∀ e f t i, Pokemon_init e f t i !! "raw" = Some e ∧
              Pokemon_init e f t i !! "types" = Some (PList [])) →
  base_mon forms mon_ids pattern templateid entry s = (Ok (mon, key), s') →
  ∃ d tys,
    entry = PDict d ∧
    getattr mon "types" s' = (Ok (PList tys), s') ∧
    let type1 := default PNone (dict_get "type" d) in
    let type2 := default PNone (dict_get "type2" d) in
    length tys = ((if truthy type1 then 1 else 0) + (if truthy type2 then 1 else 0))%nat ∧
    (length tys ≤ 2)%nat ∧
    (truthy type1 = true → (length tys = 1%nat ↔ truthy type2 = false)).
Proof.
  intros Hinit Hrun. unfold base_mon in Hrun.
  apply bind_ok in Hrun as (form_id & s1 & Hf & Hrun). apply lift_ok in Hf as [_ ->].
  apply bind_ok in Hrun as (mon_id & s1 & Hm & Hrun). apply lift_ok in Hm as [_ ->].
  apply bind_ok in Hrun as (m & s1 & Ha & Hrun).
  unfold alloc in Ha. injection Ha as <- <-.
  set (n := length (store s)) in *.
  set (o := Pokemon_init entry form_id (PStr (re_sub pattern "" templateid)) mon_id) in *.
  destruct (Hinit entry form_id (PStr (re_sub pattern "" templateid)) mon_id) as [Hraw Hty].
  fold o in Hraw, Hty.
  set (s1 := set_store (store s ++ [o]) s) in *.
  assert (field s1 n "raw" = Some entry) as Hraw1 by (unfold s1, n; by rewrite field_alloc).
  assert (field s1 n "types" = Some (PList [])) as Hty1
    by (unfold s1, n; by rewrite field_alloc).
  assert (n < length (store s1))%nat as Hn1.
  { unfold s1, n. destruct s. simpl. rewrite length_app. simpl. lia. }
  clearbody s1. clear Hraw Hty.
  apply bind_ok in Hrun as (id & s2 & Hid & Hrun).
  apply getattr_ok in Hid as (-> & _).
  apply bind_ok in Hrun as (ids & s2 & Hids & Hrun). apply lift_ok in Hids as [_ ->].
  rewrite bind_self in Hrun.
  apply bind_ok in Hrun as ([] & s2 & Hset & Hrun).
  apply setattr_ok in Hset as (a & [= <-] & ->).
  match type of Hrun with _ ?st = _ => set (s2 := st) in * end.
  assert (field s2 n "raw" = Some entry) as Hraw2.
  { unfold s2. rewrite field_setattr by done. by rewrite decide_False by (intros [_ ?]; done). }
  assert (field s2 n "types" = Some (PList [])) as Hty2.
  { unfold s2. rewrite field_setattr by done. by rewrite decide_False by (intros [_ ?]; done). }
  assert (n < length (store s2))%nat as Hn2 by (unfold s2; by rewrite store_setattr).
  clearbody s2. clear Hraw1 Hty1 Hn1.
  apply bind_ok in Hrun as (raw & s3 & Hg & Hrun).
  apply getattr_ok in Hg as (-> & _).
  apply bind_ok in Hrun as (qm & s3 & Hq & Hrun). apply lift_ok in Hq as [_ ->].
  apply bind_ok in Hrun as (qm' & s3 & Hq & Hrun).
  pose proof (for_list_pure (λ t, get_move [("template", t)]) qm
                (λ x s, get_move_pure _ s) s2) as Hp.
  rewrite Hq in Hp. simpl in Hp. subst s3.
  apply bind_ok in Hrun as ([] & s3 & Hset & Hrun).
  apply setattr_ok in Hset as (a & [= <-] & ->).
  match type of Hrun with _ ?st = _ => set (s3 := st) in * end.
  assert (field s3 n "raw" = Some entry) as Hraw3.
  { unfold s3. rewrite field_setattr by done. by rewrite decide_False by (intros [_ ?]; done). }
  assert (field s3 n "types" = Some (PList [])) as Hty3.
  { unfold s3. rewrite field_setattr by done. by rewrite decide_False by (intros [_ ?]; done). }
  assert (n < length (store s3))%nat as Hn3 by (unfold s3; by rewrite store_setattr).
  clearbody s3. clear Hraw2 Hty2 Hn2.
  apply bind_ok in Hrun as (raw' & s4 & Hg & Hrun).
  apply getattr_ok in Hg as (-> & _).
  apply bind_ok in Hrun as (cm & s4 & Hc & Hrun). apply lift_ok in Hc as [_ ->].
  apply bind_ok in Hrun as (cm' & s4 & Hc & Hrun).
  pose proof (for_list_pure (λ t, get_move [("template", t)]) cm
                (λ x s, get_move_pure _ s) s3) as Hp.
  rewrite Hc in Hp. simpl in Hp. subst s4.
  apply bind_ok in Hrun as ([] & s4 & Hset & Hrun).
  apply setattr_ok in Hset as (a & [= <-] & ->).
  match type of Hrun with _ ?st = _ => set (s4 := st) in * end.
  assert (field s4 n "raw" = Some entry) as Hraw4.
  { unfold s4. rewrite field_setattr by done. by rewrite decide_False by (intros [_ ?]; done). }
  assert (field s4 n "types" = Some (PList [])) as Hty4.
  { unfold s4. rewrite field_setattr by done. by rewrite decide_False by (intros [_ ?]; done). }
  assert (n < length (store s4))%nat as Hn4 by (unfold s4; by rewrite store_setattr).
  clearbody s4. clear Hraw3 Hty3 Hn3.
  apply bind_ok in Hrun as ([] & s5 & Htyping & Hrun).
  destruct (typing_types _ _ _ _ _ _ Hn4 Hty4 Htyping) as (d & tys & Hd & Htys & Hlen).
  rewrite Hraw4 in Hd. injection Hd as ->.
  apply bind_ok in Hrun as ([] & s6 & Happ & Hrun).
  injection Hrun as <- <- <-. simpl in Happ. injection Happ as <-.
  exists d, tys. split; [done|]. split.
  - unfold getattr. fold (field (set_mons (mons s5 ++ [n]) s5) n "types").
    by rewrite field_set_mons, Htys.
  - simpl. split; [done|]. rewrite Hlen.
    destruct (truthy (default PNone (dict_get "type" d))),
             (truthy (default PNone (dict_get "type2" d))); simpl; split; try lia;
      intros _; split; (done || lia).
Qed.

End Pass1.

(** *** Pass 4 *)

Lemma get_object_find s t :
  get_object (store s) (mons s) [("template", t)] true = find_mon s t.
Proof.
  unfold get_object, find_mon. generalize (@nil pyval).
  induction (mons s) as [|a l IH]; intros final; [done|].
  cbn [get_object_go List.find]. unfold wanted at 1. cbn [forallb fst snd].
  rewrite andb_true_r. destruct (py_eqb _ t); [done|apply IH].
Qed.


Lemma same_catalog_trans s1 s2 s3 :
  same_catalog s1 s2 → same_catalog s2 s3 → same_catalog s1 s3.
Proof.
  intros (Hm1 & Hl1 & Hf1) (Hm2 & Hl2 & Hf2). repeat split; try congruence.
  intros a name Hn. by rewrite Hf2, Hf1.
Qed.

Lemma find_mon_same s s' t : same_catalog s s' → find_mon s' t = find_mon s t.
Proof.
  intros (Hm & _ & Hf). unfold find_mon. rewrite Hm. clear Hm.
  assert (∀ a, attr (obj_at (store s') a) "template" = attr (obj_at (store s) a) "template") as Ha.
  { intros a. unfold attr. pose proof (Hf a "template") as Hft. unfold field in Hft.
    rewrite Hft; done. }
  induction (mons s) as [|a l IH]; [done|]. cbn [List.find]. rewrite Ha.
  destruct (py_eqb _ t); [done|]. apply IH.
Qed.

Lemma linked_same s s' branches :
  same_catalog s s' → linked s' branches = linked s branches.
Proof.
  intros Hs. induction branches as [|[] r IH]; simpl; try done.
  destruct (is_temporary d); [done|].
  destruct (target_template d); [|done]. by rewrite IH, (find_mon_same s s').
Qed.

Section Pass4.
Context `{Externals}.

Lemma evolution_step_appends mon evo_raw s old :
  (mon < length (store s))%nat →
  branch_ok evo_raw →
  field s mon "evolutions" = Some (PList old) →
  ∃ s', evolution_step (PRef mon) evo_raw s = (Ok (), s') ∧
        field s' mon "evolutions" = Some (PList (old ++ linked s [evo_raw])) ∧
        same_catalog s s' ∧
        ∀ a, a ≠ mon → field s' a "evolutions" = field s a "evolutions".
Proof.
  intros Hlen (d & -> & Hd) Hold. unfold evolution_step.
  cbn [py_in linked]. fold (is_temporary d). rewrite bind_lift_ok.
  destruct (is_temporary d) eqn:Ht.
  - exists s. rewrite app_nil_r. done.
  - destruct Hd as [Hd | [e He]]; [done|].
    unfold py_item. rewrite He, bind_lift_ok. cbn [py_get]. rewrite bind_lift_ok.
    rewrite bind_run, get_mon_plain by done. rewrite get_object_find.
    assert (target_template d = Some (default e (dict_get "form" d))) as ->.
    { unfold target_template. by destruct (dict_get "form" d). }
    unfold attr_append, getattr. rewrite bind_run. fold (field s mon "evolutions").
    rewrite Hold. unfold setattr. eexists. split; [reflexivity|].
    rewrite field_setattr by done. rewrite decide_True by done.
    split; [done|]. split; [split; [by destruct s|split]|].
    + by rewrite store_setattr.
    + intros a name Hn. rewrite field_setattr by done.
      rewrite decide_False; [done|]. intros [_ ?]. done.
    + intros a Ha. rewrite field_setattr by done.
      rewrite decide_False; [done|]. intros [? _]. done.
Qed.

Lemma linked_app s l1 l2 : linked s (l1 ++ l2) = linked s l1 ++ linked s l2.
Proof.
  induction l1 as [|[] r IH]; simpl; try done.
  destruct (is_temporary d); [done|].
  destruct (target_template d); [|done]. by rewrite IH.
Qed.

Lemma evolution_loop mon branches : ∀ s old,
  (mon < length (store s))%nat →
  Forall branch_ok branches →
  field s mon "evolutions" = Some (PList old) →
  ∃ s', for_each branches (evolution_step (PRef mon)) s = (Ok (), s') ∧
        field s' mon "evolutions" = Some (PList (old ++ linked s branches)) ∧
        same_catalog s s' ∧
        ∀ a, a ≠ mon → field s' a "evolutions" = field s a "evolutions".
Proof.
  induction branches as [|b r IH]; intros s old Hlen Hall Hold.
  - exists s. rewrite app_nil_r. done.
  - apply Forall_cons in Hall as [Hb Hr].
    destruct (evolution_step_appends mon b s old Hlen Hb Hold)
      as (s1 & Hrun1 & Hev1 & Hsame1 & Hoth1).
    assert (mon < length (store s1))%nat as Hlen1.
    { destruct Hsame1 as (_ & -> & _). done. }
    destruct (IH s1 _ Hlen1 Hr Hev1) as (s2 & Hrun2 & Hev2 & Hsame2 & Hoth2).
    exists s2. cbn [for_each]. rewrite bind_run, Hrun1, Hrun2.
    split; [done|]. split; [|split].
    + rewrite Hev2. rewrite (linked_same s s1) by done.
      change (b :: r) with ([b] ++ r). by rewrite linked_app, app_assoc.
    + by eapply same_catalog_trans.
    + intros a Ha. by rewrite Hoth2, Hoth1.
Qed.


End Pass4.




Section Pass4Loop.
Context `{Externals}.



End Pass4Loop.

(** * The module on the sample data *)

Example sample_built : (init "" Sample.fetched blank).1 = Ok ().
Proof. vm_compute. reflexivity. Qed.

Example sample_catalog :
  mons Sample.built = [2; 5; 6; 9]%nat ∧
  types Sample.built = [0]%nat ∧ moves Sample.built = [1]%nat.
Proof. vm_compute. done. Qed.

(** ** C1 *)

(** C1. On the sample catalog the query for Pikachu finds the creature, which
    wears costume 0; the same query with costume 5 among the criteria
    finds nothing, because the costume is matched like the template, and
    raises [AttributeError] at [mon.copy()] instead of returning a copy
    that wears the costume. *)
Theorem get_mon_costume_query_fails :
  get_mon true [("template", PStr "PIKACHU")] Sample.built
    = (Ok (PRef 2), Sample.built) ∧
  field Sample.built 2 "costume" = Some (PInt 0) ∧
  get_object (store Sample.built) (mons Sample.built)
    [("template", PStr "PIKACHU"); ("costume", PInt 5)] true = PNone ∧
  get_mon true [("template", PStr "PIKACHU"); ("costume", PInt 5)] Sample.built
    = (Raise AttributeError, Sample.built).
Proof.
  split; [by vm_compute|]. split; [by vm_compute|]. split; [by vm_compute|].
  apply (get_mon_costume_raises _ _ 5); [done|done|].
  intros a Ha. vm_compute in Ha.
  repeat (apply elem_of_cons in Ha as [->|Ha]; [by vm_compute|]).
  by apply elem_of_nil in Ha.
Qed.

(** ** C2 *)

(** C2. The first call for an enum inverts the mapping when asked to; the
    next call finds the mapping in the cache and returns it as it is,
    keys to numbers, although the inversion was asked for.  The
    constructor has resolved [Form] already, so on a built object the
    inversion of [Form] is never returned. *)
Theorem get_enum_cached_not_inverted :
  let fresh := set_raw_protos Sample.protos blank in
  let first := get_enum "Form" true fresh in
  first.1 = Ok (Rev [(0, "PIKACHU_NORMAL"); (1, "PIKACHU_COSPLAY")]) ∧
  (get_enum "Form" true first.2).1
    = Ok (Fwd [("PIKACHU_NORMAL", 0); ("PIKACHU_COSPLAY", 1)]) ∧
  (get_enum "Form" true Sample.built).1
    = Ok (Fwd [("PIKACHU_NORMAL", 0); ("PIKACHU_COSPLAY", 1)]).
Proof. by vm_compute. Qed.

(** ** C5 *)

(** C5. After [reload] has fetched the text of the later release, the enum
    [Form] is still answered from the cache of the earlier one; parsed
    from the text that the object holds, it is another mapping. *)
Theorem reload_serves_stale_enum :
  let reloaded := reload Sample.fetched_next Sample.built in
  reloaded.1 = Ok () ∧
  raw_protos reloaded.2 = Sample.protos_next ∧
  (get_enum "Form" false reloaded.2).1
    = Ok (Fwd [("PIKACHU_NORMAL", 0); ("PIKACHU_COSPLAY", 1)]) ∧
  (get_enum "Form" false (set_cached_enums ∅ reloaded.2)).1
    = Ok (Fwd [("PIKACHU_NORMAL", 0); ("PIKACHU_LIBRE", 2)]).
Proof. by vm_compute. Qed.

(** ** C3 *)


(** A branch with the [form] field alone: [evo_raw["evolution"]] is looked
    up before [evo_raw.get] is called, and the pass stops with [KeyError]. *)
Example evolution_step_form_only :
  (evolution_step (PRef 0) (PDict [("form", PStr "RAICHU_ALOLA")]) Sample.unlinked).1
  = Raise (KeyError "evolution").
Proof. reflexivity. Qed.



(** ** C4 *)

(** C4. The array holds a key with capital letters.  The query key, written
    as the array has it or in small letters, equals the stored key up to
    case, and [get_locale] answers with the question mark in place of the
    value that follows the key: the query key is put in lower case, the
    keys of the array are stored as they came.  The same array with the
    key in small letters is answered in any case. *)
Theorem get_locale_stored_case :
  let s' := (build_locale ["KEY"; "value"] blank).2 in
  (build_locale ["KEY"; "value"] blank).1 = Ok () ∧
  locale s' !! "KEY" = Some "value" ∧
  str_lower "key" = str_lower "KEY" ∧
  get_locale s' "key" = "?" ∧ get_locale s' "KEY" = "?" ∧
  get_locale (build_locale ["key"; "value"] blank).2 "KEY" = "value".
Proof. by vm_compute. Qed.

(** The sample array has its key in small letters, and the key is found in
    any case. *)
Lemma get_locale_lower_key_witness :
  Nat.Even (length Sample.locale_array) ∧
  ∃ s', build_locale Sample.locale_array blank = (Ok (), s') ∧
        get_locale s' "POKEMON_NAME_0025" = "Pikachu" ∧
        get_locale s' "missing_key" = "?" ∧
        get_locale s' "Pokemon_Name_0025" = get_locale s' "POKEMON_NAME_0025".
Proof.
  assert (Nat.Even (length Sample.locale_array)) as Hev by (by exists 1%nat).
  split; [done|].
  destruct (get_locale_lower_key Sample.locale_array blank Hev) as (s' & Hrun & Hkey).
  exists s'. split; [done|]. split; [|split].
  - destruct (Hkey "POKEMON_NAME_0025") as (Hat & _ & _).
    apply (Hat 0%nat); [by exists 0%nat|done|done|].
    intros [|[|j]] Hj _; [lia|done|done].
  - destruct (Hkey "missing_key") as (_ & Hno & _).
    apply Hno. by intros [|[|[|i]]] _.
  - destruct (Hkey "POKEMON_NAME_0025") as (_ & _ & Hcase). by apply Hcase.
Defined.

(** ** C6 *)

(** A record of the creature family without settings: neither type field
    is there, and the creature has no type at all. *)
Lemma base_mon_no_types :
  let run := base_mon (Fwd [("PIKACHU_NORMAL", 0)]) (Fwd [("PIKACHU", 25)])
               "^V\d{4}_POKEMON_" "V0025_POKEMON_PIKACHU_HOME_REVERSION" (PDict [])
               Sample.built in
  run.1 = Ok (PRef 14, "pokemon_name_0000") ∧
  dict_get "type2" ([] : list (string * pyval)) = None ∧
  field run.2 14 "types" = Some (PList []).
Proof. by vm_compute. Qed.

Lemma base_mon_types_witness :
  let run := base_mon (Fwd [("PIKACHU_NORMAL", 0)]) (Fwd [("PIKACHU", 25)])
               "^V\d{4}_POKEMON_" "V0025_POKEMON_PIKACHU" Sample.pikachu
               Sample.built in
  run.1 = Ok (PRef 14, "pokemon_name_0025") ∧
  ∃ d tys, Sample.pikachu = PDict d ∧
    getattr (PRef 14) "types" run.2 = (Ok (PList tys), run.2) ∧
    length tys = 1%nat.
Proof.
  intros run. split; [by vm_compute|].
  destruct (base_mon_types (Fwd [("PIKACHU_NORMAL", 0)]) (Fwd [("PIKACHU", 25)])
              "^V\d{4}_POKEMON_" "V0025_POKEMON_PIKACHU" Sample.pikachu
              (PRef 14) "pokemon_name_0025" Sample.built run.2)
    as (d & tys & Hd & Hty & Hlen & _ & _).
  - intros e f t i. split; reflexivity.
  - by vm_compute.
  - exists d, tys. split; [done|]. split; [done|].
    injection Hd as <-. exact Hlen.
Defined.

(** ** C7 *)

(** C7. The object was built on a text that has the enum [Form], and
    [reload] has then fetched the text of a release without it.  In the
    text that the object holds, the regular expression of [get_enum] finds
    no block for the name, and with an empty cache the call raises
    [KeyError]; the reloaded object does not raise: it answers with the
    mapping of the earlier text, from the cache that [reload] has not
    cleared, and so on every later call. *)
Theorem get_enum_stale_without_block :
  let reloaded := reload Sample.fetched_bare Sample.built in
  reloaded.1 = Ok () ∧
  raw_protos reloaded.2 = Sample.protos_bare ∧
  re_findall (enum_pattern "Form") Sample.protos_bare = Ok [] ∧
  get_enum "Form" false reloaded.2
    = (Ok (Fwd [("PIKACHU_NORMAL", 0); ("PIKACHU_COSPLAY", 1)]), reloaded.2) ∧
  get_enum "form" true reloaded.2
    = (Ok (Fwd [("PIKACHU_NORMAL", 0); ("PIKACHU_COSPLAY", 1)]), reloaded.2) ∧
  get_enum "Form" false (set_cached_enums ∅ reloaded.2)
    = (Raise (KeyError "Could not find Enum Form"), set_cached_enums ∅ reloaded.2).
Proof.
  intros reloaded.
  assert (cached_enums reloaded.2 !! str_lower "Form"
          = Some [("PIKACHU_NORMAL", 0); ("PIKACHU_COSPLAY", 1)]) as Hform
    by (vm_compute; reflexivity).
  assert (cached_enums reloaded.2 !! str_lower "form"
          = Some [("PIKACHU_NORMAL", 0); ("PIKACHU_COSPLAY", 1)]) as Hform'
    by (vm_compute; reflexivity).
  split; [vm_compute; reflexivity|]. split; [vm_compute; reflexivity|].
  split; [vm_compute; reflexivity|].
  split; [exact (get_enum_hit "Form" false reloaded.2 _ _ Hform)|].
  split; [exact (get_enum_hit "form" true reloaded.2 _ _ Hform')|].
  apply get_enum_raises; [left; apply lookup_empty|vm_compute; reflexivity].
Qed.

(** ** C8 *)

Lemma reload_odd_locale_raises_witness :
  Nat.Odd (length ["pokemon_name_0025"; "Pikachu"; "pokemon_name_0026"]) ∧
  ∃ s', reload (mkFetched Sample.protos Sample.gamemaster
                  ["pokemon_name_0025"; "Pikachu"; "pokemon_name_0026"]) Sample.built
        = (Raise IndexError, s') ∧
        mons s' = mons Sample.built.
Proof.
  assert (Nat.Odd (length ["pokemon_name_0025"; "Pikachu"; "pokemon_name_0026"]))
    as Hodd by (exists 1%nat; reflexivity).
  split; [exact Hodd|].
  destruct (reload_odd_locale_raises
              (mkFetched Sample.protos Sample.gamemaster
                 ["pokemon_name_0025"; "Pikachu"; "pokemon_name_0026"])
              Sample.built Hodd) as (s' & Hrun & _ & _ & _ & _ & Hmons).
  exists s'. split; [exact Hrun|exact Hmons].
Defined.

(** ** C9 *)

(** The empty string as subkey: the data is the whole payload, not the
    value the payload holds at that subkey. *)
Lemma get_gamemaster_empty_subkey :
  let s := set_raw_gamemaster [Sample.record "ITEM_POTION" [("", PInt 1)]] blank in
  get_gamemaster "^ITEM_.*" (Some "") s
    = (Ok [("ITEM_POTION", PDict [("", PInt 1)])], s) ∧
  dict_get "" [("", PInt 1)] = Some (PInt 1).
Proof. by vm_compute. Qed.

(** Every record of a concrete dump is a proper record. *)
Ltac records_ok :=
  repeat (apply List.Forall_cons;
          [eexists; split; [reflexivity|]; split; right; eexists; reflexivity|]);
  apply List.Forall_nil.

Lemma get_gamemaster_selects_witness :
  Forall record_ok (raw_gamemaster Sample.built) ∧
  get_gamemaster "^V\d{4}_POKEMON_.*" (Some "pokemonSettings") Sample.built
    = (Ok [("V0025_POKEMON_PIKACHU", Sample.pikachu);
           ("V0026_POKEMON_RAICHU", Sample.raichu)], Sample.built) ∧
  get_gamemaster "^V\d{4}_POKEMON_RAICHU" (Some "") Sample.built
    = (Ok [("V0026_POKEMON_RAICHU", PDict [("pokemonSettings", Sample.raichu)])],
       Sample.built).
Proof.
  assert (Forall record_ok (raw_gamemaster Sample.built)) as Hall.
  { change (raw_gamemaster Sample.built) with Sample.gamemaster. records_ok. }
  split; [exact Hall|]. split.
  - destruct (get_gamemaster_selects "^V\d{4}_POKEMON_.*" (Some "pokemonSettings")
                Sample.built Hall) as [Hsel _].
    rewrite Hsel; [|discriminate]. vm_compute. reflexivity.
  - destruct (get_gamemaster_selects "^V\d{4}_POKEMON_RAICHU" None
                Sample.built Hall) as [_ Hempty].
    rewrite Hempty. vm_compute. reflexivity.
Defined.

(** ** C10 *)

Lemma get_type_prefixes_template_witness :
  Str.startswith "POKEMON_TYPE_" "ELECTRIC" = false ∧
  get_type [("template", PStr "ELECTRIC")] Sample.built = (Ok (PRef 0), Sample.built) ∧
  get_type [("template", PStr "ELECTRIC")] Sample.built
    = get_type [("template", PStr "POKEMON_TYPE_ELECTRIC")] Sample.built ∧
  get_move [("template", PStr "ELECTRIC")] Sample.built = (Ok PNone, Sample.built).
Proof.
  split; [done|].
  destruct (get_type_prefixes_template Sample.built [("template", PStr "ELECTRIC")]
              "ELECTRIC" eq_refl eq_refl) as (Hty & _ & Hsame & _ & Hmove & _).
  split; [|split].
  - rewrite Hty. by vm_compute.
  - exact Hsame.
  - rewrite Hmove. by vm_compute.
Defined.

(** * More properties *)

(** ** More on QueryIndex *)

Lemma get_object_go_first h args l : ∀ final,
  match get_object_go h l args true final with
  | PRef a =>
      ∃ before after, l = before ++ a :: after ∧
        wanted (obj_at h a) args = true ∧
        ∀ b, b ∈ before → wanted (obj_at h b) args = false
  | PNone => ∀ a, a ∈ l → wanted (obj_at h a) args = false
  | _ => False
  end.
Proof.
  induction l as [|a l IH]; intros final.
  - simpl. intros a Ha. by apply elem_of_nil in Ha.
  - cbn [get_object_go]. destruct (wanted (obj_at h a) args) eqn:Hw.
    + exists [], l. split; [done|]. split; [done|].
      intros b Hb. by apply elem_of_nil in Hb.
    + specialize (IH final).
      destruct (get_object_go h l args true final); try done.
      * intros b Hb. apply elem_of_cons in Hb as [->|Hb]; auto.
      * destruct IH as (before & after & -> & Hwa & Hbefore).
        exists (a :: before), after. split; [done|]. split; [done|].
        intros b Hb. apply elem_of_cons in Hb as [->|Hb]; auto.
Qed.

(** X1. A search for one object returns the first object of the list, in
    list order, that meets every criterion, and [None] exactly when no
    object of the list meets them all. *)
Theorem get_object_first_match (h : list Obj) (l : list nat)
    (args : list (string * pyval)) :
  match get_object h l args true with
  | PRef a =>
      ∃ before after, l = before ++ a :: after ∧
        wanted (obj_at h a) args = true ∧
        ∀ b, b ∈ before → wanted (obj_at h b) args = false
  | PNone => ∀ a, a ∈ l → wanted (obj_at h a) args = false
  | _ => False
  end.
Proof. apply get_object_go_first. Qed.

Lemma get_object_go_all h args l : ∀ final,
  get_object_go h l args false final
  = PList (final ++ (PRef <$> List.filter (λ a, wanted (obj_at h a) args) l)).
Proof.
  induction l as [|a l IH]; intros final.
  - simpl. by rewrite app_nil_r.
  - cbn [get_object_go List.filter]. destruct (wanted (obj_at h a) args).
    + rewrite IH. cbn [fmap list_fmap]. by rewrite <- app_assoc.
    + apply IH.
Qed.

(** X2. A search for all objects returns, in list order, exactly the objects
    of the list that meet every criterion; it returns the empty list, not
    [None], when there is none. *)
Theorem get_object_all_matches (h : list Obj) (l : list nat)
    (args : list (string * pyval)) :
  get_object h l args false
  = PList (PRef <$> List.filter (λ a, wanted (obj_at h a) args) l).
Proof. unfold get_object. by rewrite get_object_go_all. Qed.

Section MoreFinders.
Context `{Externals}.

(** X3. With a positive costume among the criteria, a query for all matches
    always raises [AttributeError], whatever the catalog holds: the list
    of matches is copied as a list, and a list takes no [costume]
    attribute.  The object is left as it was. *)
Theorem get_mon_all_costume_raises (s : PogoData) (args : list (string * pyval))
    (c : Z) :
  dict_get "costume" args = Some (PInt c) → 0 < c →
  get_mon false args s = (Raise AttributeError, s).
Proof.
  intros Hc Hpos. unfold get_mon. msimpl. rewrite Hc. simpl default.
  unfold py_gt0. rewrite bool_decide_eq_true_2 by done. msimpl.
  unfold get_object. rewrite get_object_go_all. rewrite bind_run. cbn [copy].
  rewrite bind_run. unfold lift at 1, py_item. rewrite Hc.
  by rewrite bind_run.
Qed.

End MoreFinders.

Lemma get_mon_all_costume_raises_witness :
  dict_get "costume" [("costume", PInt 5)] = Some (PInt 5) ∧ 0 < 5 ∧
  get_mon false [("costume", PInt 5)] Sample.built
    = (Raise AttributeError, Sample.built).
Proof.
  split; [reflexivity|]. split; [reflexivity|].
  apply (get_mon_all_costume_raises Sample.built [("costume", PInt 5)] 5);
    reflexivity.
Defined.

(** ** More on EnumIndex *)

Lemma split_go_nonempty sep s : ∀ skip cur, Str.split_go sep skip cur s ≠ [].
Proof.
  induction s as [|c s IH]; intros skip cur; [done|].
  simpl. destruct skip; [|apply IH]. by destruct (Str.startswith sep _).
Qed.

Lemma dict_set_nonempty {V} (k : string) (v : V) d : dict_set k v d ≠ [].
Proof. destruct d as [|[k' v'] d]; simpl; [done|]. by destruct (decide _). Qed.

Lemma parse_entries_nonempty entries : ∀ final m,
  parse_entries entries final = Ok m → final ≠ [] → m ≠ [].
Proof.
  induction entries as [|entry r IH]; intros final m Hp Hf.
  - simpl in Hp. by injection Hp as <-.
  - cbn [parse_entries] in Hp.
    destruct (index (Str.split " =" entry) 0) as [k|]; [|done].
    destruct (index (Str.split "= " entry) 1) as [v|]; [|done].
    cbn [mbind result_bind] in Hp.
    destruct (index (Str.split ";" v) 0) as [v'|]; [|done].
    cbn [mbind result_bind] in Hp.
    destruct (Str.to_Z v') as [z|]; [|done].
    cbn [mbind result_bind] in Hp.
    eapply IH; [exact Hp|apply dict_set_nonempty].
Qed.

(** A block that parses has at least one entry. *)
Lemma parse_enum_nonempty proto m : parse_enum proto = Ok m → m ≠ [].
Proof.
  unfold parse_enum. intros Hp.
  destruct (index _ 1) as [p1|]; [|done]. cbn [mbind result_bind] in Hp.
  destruct (index _ 0) as [p2|]; [|done]. cbn [mbind result_bind] in Hp.
  destruct (Str.split Str.NL p2) as [|entry r] eqn:Hs.
  { by apply split_go_nonempty in Hs. }
  cbn [parse_entries] in Hp.
  destruct (index (Str.split " =" entry) 0) as [k|]; [|done].
  destruct (index (Str.split "= " entry) 1) as [v|]; [|done].
  cbn [mbind result_bind] in Hp.
  destruct (index (Str.split ";" v) 0) as [v'|]; [|done].
  cbn [mbind result_bind] in Hp.
  destruct (Str.to_Z v') as [z|]; [|done].
  cbn [mbind result_bind] in Hp.
  eapply parse_entries_nonempty; [exact Hp|apply dict_set_nonempty].
Qed.

Section MoreEnums.
Context `{Externals}.

(** What a call of [get_enum] amounts to. *)
Lemma get_enum_cases enum reverse s :
  (∃ e l, cached_enums s !! str_lower enum = Some (e :: l) ∧
          get_enum enum reverse s = (Ok (Fwd (e :: l)), s)) ∨
  ((cached_enums s !! str_lower enum = None ∨
    cached_enums s !! str_lower enum = Some []) ∧
   get_enum enum reverse s =
     match re_findall (enum_pattern enum) (raw_protos s) with
     | Raise e => (Raise e, s)
     | Ok [] => (Raise (KeyError ("Could not find Enum " +:+ enum)), s)
     | Ok (proto :: _) =>
         match parse_enum proto with
         | Ok final =>
             (Ok (if reverse then Rev (invert final) else Fwd final),
              set_cached_enums (<[str_lower enum := final]> (cached_enums s)) s)
         | Raise e => (Raise e, s)
         end
     end).
Proof.
  destruct (cached_enums s !! str_lower enum) as [[|e l]|] eqn:Hc.
  - right. split; [auto|]. apply get_enum_miss. auto.
  - left. exists e, l. split; [done|]. by apply get_enum_hit.
  - right. split; [auto|]. apply get_enum_miss. auto.
Qed.

(** X4. A call of [get_enum] that raises, for a missing block, for a name
    that [re] refuses or for a block that does not parse, leaves the object
    as it was: nothing is cached for the name. *)
Theorem get_enum_raise_keeps_object (enum : string) (reverse : bool)
    (s s' : PogoData) (e : exn) :
  get_enum enum reverse s = (Raise e, s') → s' = s.
Proof.
  destruct (get_enum_cases enum reverse s) as [(e0 & l & _ & ->) | [_ ->]];
    [done|].
  destruct (re_findall (enum_pattern enum) (raw_protos s)) as [[|proto rest]|];
    [by intros [= _ <-]| |by intros [= _ <-]].
  destruct (parse_enum proto); [done|by intros [= _ <-]].
Qed.

(** X5. After a call of [get_enum] that returns, the mapping of keys to
    numbers is in the cache under the name in lower case; what was
    returned is that mapping or its inversion; and every later call for
    the name, in any case and with either value of [reverse], returns
    that mapping and changes nothing. *)
Theorem get_enum_then_cached (enum : string) (reverse : bool) (s s' : PogoData)
    (m : enum_map) :
  get_enum enum reverse s = (Ok m, s') →
  ∃ final,
    cached_enums s' !! str_lower enum = Some final ∧
    (m = Fwd final ∨ (reverse = true ∧ m = Rev (invert final))) ∧
    ∀ enum' reverse', str_lower enum' = str_lower enum →
      get_enum enum' reverse' s' = (Ok (Fwd final), s').
Proof.
  destruct (get_enum_cases enum reverse s) as [(e0 & l & Hc & ->) | [_ ->]].
  - intros [= <- <-]. exists (e0 :: l). split; [done|]. split; [by left|].
    intros enum' reverse' Hl. apply get_enum_hit. by rewrite Hl.
  - destruct (re_findall (enum_pattern enum) (raw_protos s)) as [[|proto rest]|];
      [done| |done].
    destruct (parse_enum proto) as [final|] eqn:Hp; [|done].
    intros [= <- <-]. exists final.
    assert (cached_enums (set_cached_enums (<[str_lower enum:=final]> (cached_enums s)) s)
              !! str_lower enum = Some final) as Hc.
    { simpl. by rewrite lookup_insert_eq. }
    split; [done|]. split.
    + destruct reverse; [right|left]; done.
    + intros enum' reverse' Hl.
      pose proof (parse_enum_nonempty _ _ Hp) as Hne.
      destruct final as [|e0 l]; [done|].
      apply get_enum_hit. by rewrite Hl.
Qed.

End MoreEnums.

Lemma dict_get_set_ne {K V} `{EqDecision K} (k k' : K) (v : V) d :
  k ≠ k' → dict_get k' (dict_set k v d) = dict_get k' d.
Proof.
  intros Hk. induction d as [|[k0 v0] d IH]; simpl.
  - by rewrite decide_False by done.
  - destruct (decide (k = k0)) as [->|Hk0]; simpl.
    + by rewrite !decide_False by done.
    + destruct (decide (k' = k0)); [done|apply IH].
Qed.

Lemma dict_get_set_eq {K V} `{EqDecision K} (k : K) (v : V) d :
  dict_get k (dict_set k v d) = Some v.
Proof.
  induction d as [|[k0 v0] d IH]; simpl.
  - by rewrite decide_True.
  - destruct (decide (k = k0)) as [->|Hk0]; simpl.
    + by rewrite decide_True.
    + by rewrite decide_False.
Qed.

Lemma invert_go final : ∀ acc v,
  dict_get v (foldl (λ acc kv, dict_set kv.2 kv.1 acc) acc final)
  = match last_key final v with
    | Some k => Some k
    | None => dict_get v acc
    end.
Proof.
  induction final as [|[k v'] r IH]; intros acc v; [done|].
  cbn [foldl last_key]. rewrite IH. destruct (last_key r v); [done|].
  simpl. destruct (decide (v = v')) as [->|Hv].
  - apply dict_get_set_eq.
  - by apply dict_get_set_ne.
Qed.

Lemma last_key_elem final v k : last_key final v = Some k → (k, v) ∈ final.
Proof.
  induction final as [|[k0 v0] r IH]; [done|]. cbn [last_key].
  destruct (last_key r v) as [k'|].
  - intros [= ->]. right. by apply IH.
  - destruct (decide (v = v0)) as [->|]; [|done]. intros [= ->]. left.
Qed.

Lemma last_key_none final v : last_key final v = None → ∀ k, (k, v) ∉ final.
Proof.
  induction final as [|[k0 v0] r IH]; intros Hl k Hin.
  - by apply elem_of_nil in Hin.
  - cbn [last_key] in Hl. destruct (last_key r v) eqn:Hr; [done|].
    destruct (decide (v = v0)) as [->|Hv]; [done|].
    apply elem_of_cons in Hin as [[= -> ->]|Hin]; [done|]. by eapply IH.
Qed.

Lemma invert_lookup final v : dict_get v (invert final) = last_key final v.
Proof. unfold invert. rewrite invert_go. by destruct (last_key final v). Qed.

(** X6. The inversion sends a number to the last key, in the order of the
    block, that carries this number, and has no entry for a number that
    no key carries. *)
Theorem invert_last_key (final : list (string * Z)) (v : Z) :
  dict_get v (invert final) = last_key final v ∧
  (last_key final v = None ↔ ∀ k, (k, v) ∉ final).
Proof.
  split; [apply invert_lookup|]. split; [apply last_key_none|].
  intros Hno. destruct (last_key final v) as [k|] eqn:Hk; [|done].
  by apply last_key_elem, Hno in Hk.
Qed.

(** X7. When no two keys of the mapping carry the same number, the inversion
    is the inverse: it sends [v] to [k] exactly when the mapping holds the
    pair of [k] and [v]. *)
Theorem invert_inverse (final : list (string * Z)) (k : string) (v : Z) :
  NoDup final.*2 →
  dict_get v (invert final) = Some k ↔ (k, v) ∈ final.
Proof.
  intros Hnd. rewrite invert_lookup. split; [apply last_key_elem|].
  induction final as [|[k0 v0] r IH]; intros Hin; [by apply elem_of_nil in Hin|].
  cbn [fmap list_fmap snd] in Hnd. apply NoDup_cons in Hnd as [Hv0 Hnd].
  cbn [last_key]. apply elem_of_cons in Hin as [[= -> ->]|Hin].
  - destruct (last_key r v0) as [k'|] eqn:Hr.
    + exfalso. apply Hv0. apply last_key_elem in Hr.
      apply list_elem_of_fmap. by exists (k', v0).
    + by rewrite decide_True.
  - by rewrite (IH Hnd Hin).
Qed.

Lemma invert_inverse_witness :
  NoDup [("PIKACHU_NORMAL", 0); ("PIKACHU_COSPLAY", 1)].*2 ∧
  dict_get 1 (invert [("PIKACHU_NORMAL", 0); ("PIKACHU_COSPLAY", 1)])
    = Some "PIKACHU_COSPLAY".
Proof.
  assert (NoDup [("PIKACHU_NORMAL", 0); ("PIKACHU_COSPLAY", 1)].*2) as Hnd
    by (by apply (bool_decide_unpack _)).
  split; [exact Hnd|].
  apply (invert_inverse _ "PIKACHU_COSPLAY" 1 Hnd). right. left.
Defined.

Lemma get_enum_raise_keeps_object_witness :
  get_enum "Item" true Sample.built
    = (Raise (KeyError "Could not find Enum Item"), Sample.built) ∧
  (get_enum "Item" true Sample.built).2 = Sample.built.
Proof.
  assert (get_enum "Item" true Sample.built
          = (Raise (KeyError "Could not find Enum Item"), Sample.built)) as Hrun
    by (vm_compute; reflexivity).
  split; [exact Hrun|].
  rewrite Hrun.
  exact (get_enum_raise_keeps_object "Item" true Sample.built Sample.built _ Hrun).
Defined.

Lemma get_enum_then_cached_witness :
  let fresh := set_raw_protos Sample.protos blank in
  ∃ s', get_enum "Form" true fresh
          = (Ok (Rev [(0, "PIKACHU_NORMAL"); (1, "PIKACHU_COSPLAY")]), s') ∧
        get_enum "FORM" true s'
          = (Ok (Fwd [("PIKACHU_NORMAL", 0); ("PIKACHU_COSPLAY", 1)]), s').
Proof.
  intros fresh. set (s' := (get_enum "Form" true fresh).2).
  assert (get_enum "Form" true fresh
          = (Ok (Rev [(0, "PIKACHU_NORMAL"); (1, "PIKACHU_COSPLAY")]), s')) as Hrun
    by (vm_compute; reflexivity).
  exists s'. split; [exact Hrun|].
  destruct (get_enum_then_cached "Form" true fresh s' _ Hrun)
    as (final & Hc & _ & Hlater).
  assert (final = [("PIKACHU_NORMAL", 0); ("PIKACHU_COSPLAY", 1)]) as ->.
  { vm_compute in Hc. by injection Hc as <-. }
  apply Hlater. reflexivity.
Defined.

(** ** More on [reload] and the cache *)

Section MoreReload.
Context `{Externals}.

(** X8. A mapping with at least one entry, once in the cache, stays there
    unchanged: neither [reload], whatever the text it fetches and whatever
    the factories do through the methods of the object, nor any calls of
    [get_enum] after it replace or remove it, and [get_enum] keeps
    answering with it. *)
Theorem cached_enum_persists (f : Fetched) (calls : list (string * bool))
    (s : PogoData) (enum : string) (e : string * Z) (l : list (string * Z)) :
  tame_factories →
  cached_enums s !! str_lower enum = Some (e :: l) →
  let s' := run_calls calls (reload f s).2 in
  cached_enums s' !! str_lower enum = Some (e :: l) ∧
  ∀ reverse, get_enum enum reverse s' = (Ok (Fwd (e :: l)), s').
Proof.
  intros Hfac Hc s'.
  assert (cached_enums s' !! str_lower enum = Some (e :: l)) as Hc'.
  { unfold s'. destruct (run_calls_same_text calls (reload f s).2) as [_ Hg].
    eapply cache_grows_keeps; [exact Hg|]. by apply reload_keeps_cache. }
  split; [done|]. intros reverse. by apply get_enum_hit.
Qed.

(** X9. On an object built by [__init__] and then asked for enums any number
    of times, every mapping in the cache is the parse of the first block
    that the regular expression of [get_enum] finds in the fetched text
    for a name whose lower case is the key. *)
Theorem init_cache_parsed (icon : string) (f : Fetched) (s0 : PogoData)
    (calls : list (string * bool)) (k : string) (m : list (string * Z)) :
  tame_factories →
  cached_enums (run_calls calls (init icon f s0).2) !! k = Some m →
  ∃ enum proto rest,
    str_lower enum = k ∧
    re_findall (enum_pattern enum) (f_protos f) = Ok (proto :: rest) ∧
    parse_enum proto = Ok m.
Proof.
  intros Hfac. rewrite init_split, reload_split.
  set (s1 := set_raw_protos (f_protos f) (set_icon_url icon (set_cached_enums ∅ s0))).
  intros Hk.
  assert (same_text s1 (run_calls calls (reload_rest f s1).2)) as [_ Hg].
  { eapply same_text_trans; [by apply tame_reload_rest|apply run_calls_same_text]. }
  destruct (Hg k) as [Heq | [_ (n & blk & rest & m' & Hn & Hf & Hp & Hm)]].
  - rewrite Hk in Heq. done.
  - rewrite Hk in Hm. injection Hm as ->. by exists n, blk, rest.
Qed.

(** X10. [__make_mon_list] needs the enum [Form] first: on an object whose
    cache has no usable entry for it and in whose text the regular
    expression finds no block for it, the method raises the [KeyError] of
    [get_enum] right after it has emptied the list of creatures, and
    nothing else of the object has changed. *)
Theorem make_mon_list_without_form (s : PogoData) :
  (cached_enums s !! str_lower "Form" = None ∨
   cached_enums s !! str_lower "Form" = Some []) →
  re_findall (enum_pattern "Form") (raw_protos s) = Ok [] →
  make_mon_list s = (Raise (KeyError "Could not find Enum Form"), set_mons [] s).
Proof.
  intros Hc Hno. unfold make_mon_list. rewrite bind_modify, bind_run.
  by rewrite get_enum_raises.
Qed.

(** X11. [reload] is not undone by the failure on a locale array of odd
    length: the object then holds the fetched text and settings dump, and
    its locale table is the table of the pairs that come before the last
    element of the array; the enum cache is as before. *)
Theorem reload_odd_locale_state (f : Fetched) (s : PogoData)
    (pairs : list string) (last : string) :
  f_locale f = pairs ++ [last] → Nat.Even (length pairs) →
  ∃ s', reload f s = (Raise IndexError, s') ∧
        raw_protos s' = f_protos f ∧
        raw_gamemaster s' = f_gamemaster f ∧
        (∃ full, build_locale pairs s = (Ok (), full) ∧ locale s' = locale full) ∧
        cached_enums s' = cached_enums s.
Proof.
  intros Hf Hev. unfold reload. msimpl. rewrite bind_run, !build_locale_fill.
  assert (∀ L, fill (pairs ++ [last]) L = (Raise IndexError, (fill pairs L).2)) as Hfill.
  { clear Hf. induction pairs as [|k|k v pairs IH] using list_pair_ind; intros L.
    - done.
    - destruct Hev as [m Hm]. simpl in Hm. lia.
    - cbn [app fill]. apply IH. destruct Hev as [m Hm]. simpl in Hm.
      exists (m - 1)%nat. lia. }
  rewrite Hf, Hfill. destruct (fill_even pairs ∅ Hev) as [-> _].
  eexists. split; [reflexivity|]. split; [by destruct s|]. split; [by destruct s|].
  split; [|by destruct s]. eexists. split; [reflexivity|]. by destruct s.
Qed.

End MoreReload.

(** The reference factories read the settings dump and create entities. *)
Lemma reference_factories_tame : tame_factories.
Proof.
  split; [|split; [|split]]; intros s; by apply same_text_fields.
Qed.

Lemma cached_enum_persists_witness :
  let s' := run_calls [("Item", false)] (reload Sample.fetched_next Sample.built).2 in
  cached_enums Sample.built !! str_lower "Form"
    = Some [("PIKACHU_NORMAL", 0); ("PIKACHU_COSPLAY", 1)] ∧
  get_enum "Form" true s'
    = (Ok (Fwd [("PIKACHU_NORMAL", 0); ("PIKACHU_COSPLAY", 1)]), s').
Proof.
  assert (cached_enums Sample.built !! str_lower "Form"
          = Some [("PIKACHU_NORMAL", 0); ("PIKACHU_COSPLAY", 1)]) as Hc
    by (vm_compute; reflexivity).
  split; [exact Hc|].
  destruct (cached_enum_persists Sample.fetched_next [("Item", false)] Sample.built
              "Form" _ _ reference_factories_tame Hc) as [_ Hget].
  exact (Hget true).
Defined.

Lemma init_cache_parsed_witness :
  cached_enums (run_calls [] (init "" Sample.fetched blank).2) !! "holopokemonid"
    = Some [("PIKACHU", 25); ("RAICHU", 26)] ∧
  ∃ enum proto rest,
    str_lower enum = "holopokemonid" ∧
    re_findall (enum_pattern enum) Sample.protos = Ok (proto :: rest) ∧
    parse_enum proto = Ok [("PIKACHU", 25); ("RAICHU", 26)].
Proof.
  assert (cached_enums (run_calls [] (init "" Sample.fetched blank).2) !! "holopokemonid"
          = Some [("PIKACHU", 25); ("RAICHU", 26)]) as Hc by (vm_compute; reflexivity).
  split; [exact Hc|].
  exact (init_cache_parsed "" Sample.fetched blank [] _ _ reference_factories_tame Hc).
Defined.

Lemma make_mon_list_without_form_witness :
  let s := set_raw_protos "syntax = 3;" Sample.unlinked in
  re_findall (enum_pattern "Form") "syntax = 3;" = Ok [] ∧
  make_mon_list s = (Raise (KeyError "Could not find Enum Form"), set_mons [] s).
Proof.
  intros s. split; [reflexivity|].
  apply (make_mon_list_without_form s); [left; reflexivity|reflexivity].
Defined.

Lemma reload_odd_locale_state_witness :
  ∃ s', reload (mkFetched Sample.protos_next [] ["k"; "v"; "trailing"]) Sample.built
          = (Raise IndexError, s') ∧
        raw_protos s' = Sample.protos_next ∧
        get_locale s' "k" = "v" ∧ get_locale s' "pokemon_name_0025" = "?".
Proof.
  destruct (reload_odd_locale_state
              (mkFetched Sample.protos_next [] ["k"; "v"; "trailing"]) Sample.built
              ["k"; "v"] "trailing" eq_refl) as (s' & Hrun & Hp & _ & (full & Hb & Hl) & _).
  { exists 1%nat. reflexivity. }
  exists s'. split; [exact Hrun|]. split; [exact Hp|].
  unfold get_locale. rewrite Hl.
  rewrite build_locale_fill in Hb. injection Hb as <-. split; reflexivity.
Defined.

(** ** Blocks that are correctly formatted *)










(** *** [str.split] on a text with a known first separator *)






(** *** The lines of a block *)




















(** ** More on the passes *)

Section MorePass4.
Context `{Externals}.

Lemma evolution_step_no_target mon d s :
  dict_get "temporaryEvolution" d = None → dict_get "evolution" d = None →
  evolution_step mon (PDict d) s = (Raise (KeyError "evolution"), s).
Proof.
  intros Ht He. unfold evolution_step. cbn [py_in]. rewrite Ht.
  rewrite bind_lift_ok. rewrite bool_decide_eq_false_2 by (by intros [? ?]).
  unfold py_item. by rewrite He, bind_lift_raise.
Qed.

(** X14. Pass 4 stops at the first branch of a creature that is not a
    temporary evolution and has no [evolution] field, even when the branch
    names its target in the [form] field: it raises [KeyError], and the
    targets of the branches before it are already appended. *)
Theorem link_evolutions_stops (mon : nat) (s : PogoData)
    (good rest old : list pyval) (d : list (string * pyval)) :
  (mon < length (store s))%nat →
  branches_of s mon = Some (good ++ PDict d :: rest) →
  Forall branch_ok good →
  dict_get "temporaryEvolution" d = None → dict_get "evolution" d = None →
  field s mon "evolutions" = Some (PList old) →
  ∃ s', link_evolutions mon s = (Raise (KeyError "evolution"), s') ∧
        field s' mon "evolutions" = Some (PList (old ++ linked s good)) ∧
        same_catalog s s'.
Proof.
  intros Hlen Hbr Hgood Ht He Hold. unfold link_evolutions, getattr.
  unfold branches_of in Hbr. rewrite bind_run. fold (field s mon "raw").
  destruct (field s mon "raw") as [[| | | | |d0|]|]; try done.
  cbn [py_get]. rewrite result_bind_ok.
  destruct (default (PList []) (dict_get "evolutionBranch" d0)); try done.
  injection Hbr as ->. cbn [py_iter]. rewrite bind_lift_ok.
  destruct (evolution_loop mon good s old Hlen Hgood Hold)
    as (s1 & Hrun & Hev & Hsame & _).
  exists s1. split; [|done].
  clear Hev Hsame Hold Hlen. revert s s1 Hrun.
  induction good as [|b good IH]; intros s s1 Hrun.
  - cbn [for_each] in Hrun. injection Hrun as <-. cbn [app for_each].
    by rewrite bind_run, evolution_step_no_target.
  - apply Forall_cons in Hgood as [_ Hgood]. cbn [app for_each] in *.
    apply bind_ok in Hrun as ([] & s2 & Hb & Hrun).
    rewrite bind_run, Hb. by apply IH.
Qed.

End MorePass4.

Lemma link_evolutions_stops_witness :
  let s := set_store
             [ Reference.new_pokemon
                 (PDict [("evolutionBranch",
                          PList [PDict [("evolution", PStr "RAICHU")];
                                 PDict [("form", PStr "RAICHU_ALOLA")]])])
                 (PInt 0) (PStr "PIKACHU") (PInt 25);
               Reference.new_pokemon Sample.raichu (PInt 0) (PStr "RAICHU") (PInt 26) ]
             Sample.unlinked in
  ∃ s', link_evolutions 0 s = (Raise (KeyError "evolution"), s') ∧
        field s' 0 "evolutions" = Some (PList [PRef 1]).
Proof.
  intros s.
  destruct (link_evolutions_stops 0 s [PDict [("evolution", PStr "RAICHU")]] [] []
              [("form", PStr "RAICHU_ALOLA")]) as (s' & Hrun & Hev & _).
  - simpl. lia.
  - reflexivity.
  - apply List.Forall_cons; [|apply List.Forall_nil].
    eexists. split; [reflexivity|]. right. by eexists.
  - reflexivity.
  - reflexivity.
  - reflexivity.
  - exists s'. split; [exact Hrun|]. rewrite Hev. reflexivity.
Defined.

(** *** What Pass 1 does to the object *)

Lemma touch_refl a s : touch a s s.
Proof. exists (store s). by rewrite set_store_same. Qed.

Lemma touch_trans a s1 s2 s3 : touch a s1 s2 → touch a s2 s3 → touch a s1 s3.
Proof.
  intros (h1 & -> & Hl1 & Hf1) (h2 & -> & Hl2 & Hf2). exists h2.
  split; [by destruct s1|]. split.
  - rewrite Hl2. by destruct s1.
  - intros b Hb. rewrite Hf2 by done. replace (store (set_store h1 s1)) with h1
      by (by destruct s1). by apply Hf1.
Qed.

Lemma touch_alter f a s : touch a s (set_store (alter f a (store s)) s).
Proof.
  eexists. split; [done|]. split; [by rewrite length_alter|].
  intros b Hb. by apply obj_at_alter_ne.
Qed.

Lemma touch_field a s s' b name : touch a s s' → b ≠ a → field s' b name = field s b name.
Proof.
  intros (h & -> & _ & Hf) Hb. unfold field.
  replace (store (set_store h s)) with h by (by destruct s). by rewrite Hf.
Qed.

Lemma touch_length a s s' : touch a s s' → length (store s') = length (store s).
Proof. intros (h & -> & Hl & _). by destruct s. Qed.

Lemma attr_append_ok v name x s s' :
  attr_append v name x s = (Ok (), s') →
  ∃ a l, v = PRef a ∧ field s a name = Some (PList l) ∧
         s' = set_store (alter (insert name (PList (l ++ [x]))) a (store s)) s.
Proof.
  unfold attr_append. intros Hrun. apply bind_ok in Hrun as (l & s1 & Hg & Hrun).
  apply getattr_ok in Hg as (-> & a & -> & Hl).
  destruct l as [| | | |l| |]; try done.
  apply setattr_ok in Hrun as (a' & [= <-] & ->). by exists a, l.
Qed.

Lemma typing_round_fields mon t s s' :
  (mon < length (store s))%nat →
  (if truthy t
   then t' ← get_type [("template", t)]; attr_append (PRef mon) "types" t'
   else mret ()) s = (Ok (), s') →
  touch mon s s' ∧ ∀ name, name ≠ "types" → field s' mon name = field s mon name.
Proof.
  intros Hlen. destruct (truthy t).
  - intros Hrun. apply bind_ok in Hrun as (t' & s1 & Hg & Hrun).
    pose proof (get_type_pure [("template", t)] s) as Hp. rewrite Hg in Hp.
    simpl in Hp. subst s1.
    apply attr_append_ok in Hrun as (a & l & [= <-] & _ & ->).
    split; [apply touch_alter|]. intros name Hn. rewrite field_setattr by done.
    rewrite decide_False; [done|]. intros [_ ?]. done.
  - intros [= <-]. split; [apply touch_refl|done].
Qed.

Lemma typing_fields mon r1 r2 s s' :
  (mon < length (store s))%nat →
  typing (PRef mon) r1 r2 s = (Ok (), s') →
  touch mon s s' ∧ ∀ name, name ≠ "types" → field s' mon name = field s mon name.
Proof.
  intros Hlen Hrun. unfold typing in Hrun.
  apply bind_ok in Hrun as (raw & s1 & Hraw & Hrun).
  apply getattr_ok in Hraw as (-> & _).
  apply bind_ok in Hrun as (t1 & s1 & H1 & Hrun). apply lift_ok in H1 as [_ ->].
  apply bind_ok in Hrun as (t2 & s1 & H2 & Hrun). apply lift_ok in H2 as [_ ->].
  cbn [for_each] in Hrun.
  apply bind_ok in Hrun as ([] & s1 & Hr1 & Hrun).
  apply bind_ok in Hrun as ([] & s2 & Hr2 & Hrun).
  injection Hrun as <-.
  destruct (typing_round_fields _ _ _ _ Hlen Hr1) as [Ht1 Hf1].
  rewrite <- (touch_length _ _ _ Ht1) in Hlen.
  destruct (typing_round_fields _ _ _ _ Hlen Hr2) as [Ht2 Hf2].
  split; [by eapply touch_trans|]. intros name Hn. by rewrite Hf2, Hf1.
Qed.

Lemma get_object_ext h h' l args one :
  (∀ a, a ∈ l → obj_at h' a = obj_at h a) →
  get_object h' l args one = get_object h l args one.
Proof.
  unfold get_object. generalize (@nil pyval).
  induction l as [|a l IH]; intros final Hl; [done|].
  cbn [get_object_go]. rewrite Hl by left.
  destruct (wanted (obj_at h a) args); [destruct one; [done|]|];
    apply IH; intros b Hb; apply Hl; by right.
Qed.

Lemma for_list_get_move l s :
  for_list l (λ t, get_move [("template", t)]) s
  = (Ok ((λ t, get_object (store s) (moves s) [("template", t)] true) <$> l), s).
Proof.
  induction l as [|t l IH]; [done|].
  cbn [for_list]. rewrite bind_run.
  change (get_move [("template", t)] s)
    with (Ok (get_object (store s) (moves s) [("template", t)] true), s).
  cbv beta iota. by rewrite bind_run, IH.
Qed.

Lemma one_more_alloc s o : one_more s (set_store (store s ++ [o]) s).
Proof.
  split; [by destruct s|]. split.
  - destruct s. simpl. rewrite length_app. simpl. lia.
  - intros b Hb. replace (store (set_store (store s ++ [o]) s)) with (store s ++ [o])
      by (by destruct s).
    unfold obj_at. destruct (decide (b < length (store s))%nat).
    + by rewrite lookup_app_l.
    + rewrite !lookup_ge_None_2; [done|lia|]. rewrite length_app. simpl. lia.
Qed.

Lemma one_more_touch s sk sk' :
  one_more s sk → touch (length (store s)) sk sk' → one_more s sk'.
Proof.
  intros (Hs & Hl & Hf) (h & -> & Hlh & Hfh). split; [|split].
  - rewrite <- Hs. by destruct sk.
  - replace (store (set_store h sk)) with h by (by destruct sk). congruence.
  - intros b Hb. replace (store (set_store h sk)) with h by (by destruct sk).
    rewrite Hfh by done. by apply Hf.
Qed.

Lemma one_more_fields s sk :
  one_more s sk →
  items sk = items s ∧ types sk = types s ∧ moves sk = moves s ∧
  grunts sk = grunts s ∧ mons sk = mons s ∧
  cached_enums sk = cached_enums s ∧ locale sk = locale s.
Proof. intros (Hs & _ & _). rewrite <- Hs. by destruct sk. Qed.

Lemma field_same_store s sk a name :
  obj_at (store sk) a = obj_at (store s) a → field sk a name = field s a name.
Proof. unfold field. by intros ->. Qed.

Section MorePass1.
Context `{Externals}.

(** The run of [base_mon], step by step. *)
Lemma base_mon_run forms mon_ids pattern templateid entry mon key s s' :
  (∀ a, a ∈ moves s → (a < length (store s))%nat) →
  base_mon forms mon_ids pattern templateid entry s = (Ok (mon, key), s') →
  let n := length (store s) in
  ∃ s5 raw quick charge,
    mon = PRef n ∧ s' = set_mons (mons s ++ [n]) s5 ∧ one_more s s5 ∧
    (∃ f i, Pokemon_init entry f (PStr (re_sub pattern "" templateid)) i !! "raw"
            = Some raw) ∧
    (py_get raw "quickMoves" (PList []) ≫= py_iter) = Ok quick ∧
    (py_get raw "cinematicMoves" (PList []) ≫= py_iter) = Ok charge ∧
    field s5 n "quick_moves"
      = Some (PList ((λ t, get_object (store s) (moves s) [("template", t)] true) <$> quick)) ∧
    field s5 n "charge_moves"
      = Some (PList ((λ t, get_object (store s) (moves s) [("template", t)] true) <$> charge)).
Proof.
  intros Hmoves Hrun n. unfold base_mon in Hrun.
  apply bind_ok in Hrun as (form_id & s1 & Hf & Hrun). apply lift_ok in Hf as [_ ->].
  apply bind_ok in Hrun as (mon_id & s1 & Hm & Hrun). apply lift_ok in Hm as [_ ->].
  apply bind_ok in Hrun as (m & s1 & Ha & Hrun).
  unfold alloc in Ha. injection Ha as <- <-. fold n in Hrun.
  set (o := Pokemon_init entry form_id (PStr (re_sub pattern "" templateid)) mon_id) in *.
  pose proof (one_more_alloc s o) as H1.
  assert (field (set_store (store s ++ [o]) s) n "raw" = o !! "raw") as Hraw1
    by apply field_alloc.
  set (s1 := set_store (store s ++ [o]) s) in *. clearbody s1.
  assert (∀ sk, one_more s sk →
            ∀ t, get_object (store sk) (moves sk) [("template", t)] true
                 = get_object (store s) (moves s) [("template", t)] true) as Hget.
  { intros sk Hsk t. destruct (one_more_fields s sk Hsk) as (_ & _ & -> & _).
    apply get_object_ext. intros a Ha. destruct Hsk as (_ & _ & Hobj).
    apply Hobj. specialize (Hmoves a Ha). lia. }
  assert (∀ sk, one_more s sk → (n < length (store sk))%nat) as Hlt.
  { intros sk (_ & -> & _). unfold n. lia. }
  apply bind_ok in Hrun as (id & s2 & Hid & Hrun).
  apply getattr_ok in Hid as (-> & _).
  apply bind_ok in Hrun as (ids & s2 & Hids & Hrun). apply lift_ok in Hids as [_ ->].
  rewrite bind_self in Hrun.
  apply bind_ok in Hrun as ([] & s2 & Hset & Hrun).
  apply setattr_ok in Hset as (a & [= <-] & ->).
  match type of Hrun with _ ?st = _ => set (s2 := st) in * end.
  assert (one_more s s2) as H2 by (eapply one_more_touch; [exact H1|apply touch_alter]).
  assert (field s2 n "raw" = o !! "raw") as Hraw2.
  { unfold s2. rewrite field_setattr by auto.
    by rewrite decide_False by (intros [_ ?]; done). }
  clearbody s2. clear H1 Hraw1.
  apply bind_ok in Hrun as (raw & s3 & Hg & Hrun).
  apply getattr_ok in Hg as (-> & a & [= <-] & Hraw). fold (field s2 n "raw") in Hraw.
  apply bind_ok in Hrun as (quick & s3 & Hq & Hrun). apply lift_ok in Hq as [Hq ->].
  rewrite bind_run, for_list_get_move in Hrun.
  apply bind_ok in Hrun as ([] & s3 & Hset & Hrun).
  apply setattr_ok in Hset as (a & [= <-] & ->).
  match type of Hrun with _ ?st = _ => set (s3 := st) in * end.
  assert (one_more s s3) as H3 by (eapply one_more_touch; [exact H2|apply touch_alter]).
  assert (field s3 n "raw" = Some raw) as Hraw3.
  { unfold s3. rewrite field_setattr by auto.
    by rewrite decide_False by (intros [_ ?]; done). }
  assert (field s3 n "quick_moves"
          = Some (PList ((λ t, get_object (store s) (moves s) [("template", t)] true) <$> quick)))
    as Hquick3.
  { unfold s3. rewrite field_setattr by auto. rewrite decide_True by done.
    do 2 f_equal. apply list_fmap_ext. intros _ t _. by apply Hget. }
  clearbody s3.
  apply bind_ok in Hrun as (raw' & s4 & Hg & Hrun).
  apply getattr_ok in Hg as (-> & a & [= <-] & Hraw'). fold (field s3 n "raw") in Hraw'.
  rewrite Hraw3 in Hraw'. injection Hraw' as <-.
  apply bind_ok in Hrun as (charge & s4 & Hc & Hrun). apply lift_ok in Hc as [Hc ->].
  rewrite bind_run, for_list_get_move in Hrun.
  apply bind_ok in Hrun as ([] & s4 & Hset & Hrun).
  apply setattr_ok in Hset as (a & [= <-] & ->).
  match type of Hrun with _ ?st = _ => set (s4 := st) in * end.
  assert (one_more s s4) as H4 by (eapply one_more_touch; [exact H3|apply touch_alter]).
  assert (field s4 n "quick_moves"
          = Some (PList ((λ t, get_object (store s) (moves s) [("template", t)] true) <$> quick)))
    as Hquick4.
  { unfold s4. rewrite field_setattr by auto.
    by rewrite decide_False by (intros [_ ?]; done). }
  assert (field s4 n "charge_moves"
          = Some (PList ((λ t, get_object (store s) (moves s) [("template", t)] true) <$> charge)))
    as Hcharge4.
  { unfold s4. rewrite field_setattr by auto. rewrite decide_True by done.
    do 2 f_equal. apply list_fmap_ext. intros _ t _. by apply Hget. }
  clearbody s4.
  apply bind_ok in Hrun as ([] & s5 & Htyping & Hrun).
  destruct (typing_fields _ _ _ _ _ (Hlt _ H4) Htyping) as [Ht5 Hf5].
  apply bind_ok in Hrun as ([] & s6 & Happ & Hrun).
  injection Hrun as <- <- <-. simpl in Happ. injection Happ as <-.
  exists s5, raw, quick, charge.
  destruct (one_more_fields s s5) as (_ & _ & _ & _ & -> & _);
    [by eapply one_more_touch|].
  split; [done|]. split; [done|]. split; [by eapply one_more_touch|].
  split; [exists form_id, mon_id; fold o; by rewrite <- Hraw2|].
  split; [done|]. split; [done|]. by rewrite !Hf5.
Qed.

(** X15. Building the base creature of a record adds one object to the
    store and appends it to the list of creatures; every object that was
    there before, and the lists of items, types, moves and grunts, the
    enum cache and the locale table, are as before. *)
Theorem base_mon_appends (forms mon_ids : enum_map) (pattern templateid : string)
    (entry mon : pyval) (key : string) (s s' : PogoData) :
  (∀ a, a ∈ moves s → (a < length (store s))%nat) →
  base_mon forms mon_ids pattern templateid entry s = (Ok (mon, key), s') →
  let n := length (store s) in
  mon = PRef n ∧
  mons s' = mons s ++ [n] ∧
  length (store s') = S n ∧
  (∀ b, b ≠ n → obj_at (store s') b = obj_at (store s) b) ∧
  items s' = items s ∧ types s' = types s ∧ moves s' = moves s ∧
  grunts s' = grunts s ∧ cached_enums s' = cached_enums s ∧ locale s' = locale s.
Proof.
  intros Hmoves Hrun n.
  destruct (base_mon_run _ _ _ _ _ _ _ _ _ Hmoves Hrun)
    as (s5 & raw & quick & charge & -> & -> & H5 & _).
  destruct (one_more_fields s s5 H5) as (Hi & Ht & Hm & Hg & _ & Hc & Hl).
  destruct H5 as (_ & Hlen & Hobj).
  split; [done|]. split; [by destruct s5|].
  split; [by destruct s5|]. split; [intros b Hb; destruct s5; by apply Hobj|].
  by destruct s5.
Qed.

(** X16. The quick and charge moves of a base creature are the results of
    the searches for the identifiers of [quickMoves] and
    [cinematicMoves], one for each identifier and in the order of the
    record: the first move with that template, or [None] when the list of
    moves has none.  The constructor is taken to keep the record under
    [raw], and the moves to be objects of the store. *)
Theorem base_mon_moves (forms mon_ids : enum_map) (pattern templateid : string)
    (entry mon : pyval) (key : string) (s s' : PogoData) :
  (∀ e f t i, Pokemon_init e f t i !! "raw" = Some e) →
  (∀ a, a ∈ moves s → (a < length (store s))%nat) →
  base_mon forms mon_ids pattern templateid entry s = (Ok (mon, key), s') →
  ∃ d quick charge,
    entry = PDict d ∧
    py_iter (default (PList []) (dict_get "quickMoves" d)) = Ok quick ∧
    py_iter (default (PList []) (dict_get "cinematicMoves" d)) = Ok charge ∧
    getattr mon "quick_moves" s'
      = (Ok (PList ((λ t, get_object (store s) (moves s) [("template", t)] true)
                    <$> quick)), s') ∧
    getattr mon "charge_moves" s'
      = (Ok (PList ((λ t, get_object (store s) (moves s) [("template", t)] true)
                    <$> charge)), s').
Proof.
  intros Hinit Hmoves Hrun.
  destruct (base_mon_run _ _ _ _ _ _ _ _ _ Hmoves Hrun)
    as (s5 & raw & quick & charge & -> & -> & H5 & (f & i & Hraw) & Hq & Hc & Hqm & Hcm).
  rewrite Hinit in Hraw. injection Hraw as <-.
  destruct entry as [| | | | |d|]; try done.
  exists d, quick, charge. split; [done|]. split; [exact Hq|]. split; [exact Hc|].
  unfold getattr.
  fold (field (set_mons (mons s ++ [length (store s)]) s5) (length (store s)) "quick_moves").
  fold (field (set_mons (mons s ++ [length (store s)]) s5) (length (store s)) "charge_moves").
  by rewrite !field_set_mons, Hqm, Hcm.
Qed.

End MorePass1.

Section MorePass2.
Context `{Externals}.

(** X17. A form entry whose template some creature of the catalog already
    has adds no creature: the catalog list is as before, no object but
    that creature is changed, and without an asset value or suffix in the
    entry nothing changes at all. *)
Theorem form_step_known (form_enums : enum_map) (formsettings : pyval)
    (d : list (string * pyval)) (a : nat) (s : PogoData) :
  get_object (store s) (mons s)
    [("template", default PNone (dict_get "form" d))] true = PRef a →
  ∃ s', form_step form_enums formsettings (PDict d) s = (Ok (), s') ∧
        mons s' = mons s ∧ touch a s s' ∧
        (truthy (default PNone (dict_get "assetBundleValue" d)) = false →
         truthy (default PNone (dict_get "assetBundleSuffix" d)) = false → s' = s).
Proof.
  intros Hfind. unfold form_step. cbn [py_get]. rewrite bind_lift_ok.
  rewrite bind_run, get_mon_plain by done. rewrite Hfind.
  cbn [truthy negb]. rewrite bind_ret, !bind_lift_ok.
  destruct (truthy (default PNone (dict_get "assetBundleValue" d)) ||
            truthy (default PNone (dict_get "assetBundleSuffix" d))) eqn:Hasset.
  - rewrite bind_run. cbn [setattr]. rewrite bind_run. cbn [setattr call_method].
    eexists. split; [reflexivity|]. split; [by destruct s|]. split.
    + eapply touch_trans; [apply touch_alter|].
      eapply touch_trans; [apply touch_alter|]. apply touch_alter.
    + intros Hv Hs. by rewrite Hv, Hs in Hasset.
  - exists s. split; [done|]. split; [done|]. split; [apply touch_refl|done].
Qed.

(** X18. A form entry whose template no creature has, in a family whose base
    template no creature has either, stops Pass 2: the search for the
    base creature returns [None], and [mon.copy()] raises
    [AttributeError]; nothing has been changed. *)
Theorem form_step_unknown_family (form_enums : enum_map)
    (fs d : list (string * pyval)) (base : pyval) (s : PogoData) :
  get_object (store s) (mons s)
    [("template", default PNone (dict_get "form" d))] true = PNone →
  dict_get "pokemon" fs = Some base →
  get_object (store s) (mons s) [("template", base)] true = PNone →
  form_step form_enums (PDict fs) (PDict d) s = (Raise AttributeError, s).
Proof.
  intros Hform Hbase Hfind. unfold form_step. cbn [py_get]. rewrite bind_lift_ok.
  rewrite bind_run, get_mon_plain by done. rewrite Hform.
  cbn [truthy negb]. rewrite bind_assoc. unfold py_item. rewrite Hbase, bind_lift_ok.
  rewrite bind_assoc, bind_run, get_mon_plain by done. rewrite Hfind.
  rewrite bind_assoc, bind_run. done.
Qed.

End MorePass2.

Lemma base_mon_appends_witness :
  let run := base_mon (Fwd [("PIKACHU_NORMAL", 0)]) (Fwd [("PIKACHU", 25)])
               "^V\d{4}_POKEMON_" "V0025_POKEMON_PIKACHU" Sample.pikachu
               Sample.built in
  run.1 = Ok (PRef 14, "pokemon_name_0025") ∧
  mons run.2 = mons Sample.built ++ [length (store Sample.built)] ∧
  obj_at (store run.2) 2 = obj_at (store Sample.built) 2.
Proof.
  intros run.
  assert (run = (Ok (PRef 14, "pokemon_name_0025"), run.2)) as Hrun
    by (vm_compute; reflexivity).
  split; [vm_compute; reflexivity|].
  destruct (base_mon_appends (Fwd [("PIKACHU_NORMAL", 0)]) (Fwd [("PIKACHU", 25)])
              "^V\d{4}_POKEMON_" "V0025_POKEMON_PIKACHU" Sample.pikachu
              (PRef 14) "pokemon_name_0025" Sample.built run.2)
    as (_ & Hmons & _ & Hobj & _).
  - intros a Ha. vm_compute in Ha. apply list_elem_of_singleton in Ha as ->.
    vm_compute. lia.
  - exact Hrun.
  - split; [exact Hmons|]. apply Hobj. vm_compute. lia.
Defined.

Lemma base_mon_moves_witness :
  let run := base_mon (Fwd [("PIKACHU_NORMAL", 0)]) (Fwd [("PIKACHU", 25)])
               "^V\d{4}_POKEMON_" "V0025_POKEMON_PIKACHU" Sample.pikachu
               Sample.built in
  ∃ quick charge,
    getattr (PRef 14) "quick_moves" run.2 = (Ok (PList quick), run.2) ∧
    getattr (PRef 14) "charge_moves" run.2 = (Ok (PList charge), run.2) ∧
    length quick = 1%nat ∧ length charge = 0%nat.
Proof.
  intros run.
  assert (run = (Ok (PRef 14, "pokemon_name_0025"), run.2)) as Hrun
    by (vm_compute; reflexivity).
  destruct (base_mon_moves (Fwd [("PIKACHU_NORMAL", 0)]) (Fwd [("PIKACHU", 25)])
              "^V\d{4}_POKEMON_" "V0025_POKEMON_PIKACHU" Sample.pikachu
              (PRef 14) "pokemon_name_0025" Sample.built run.2)
    as (d & quick & charge & Hd & Hq & Hc & Hqm & Hcm).
  - intros e f t i. reflexivity.
  - intros a Ha. vm_compute in Ha. apply list_elem_of_singleton in Ha as ->.
    vm_compute. lia.
  - exact Hrun.
  - injection Hd as <-. injection Hq as <-. injection Hc as <-.
    eexists _, _. split; [exact Hqm|]. split; [exact Hcm|]. split; reflexivity.
Defined.

Lemma form_step_known_witness :
  ∃ s', form_step (Fwd [("PIKACHU_NORMAL", 0)])
          (PDict [("pokemon", PStr "PIKACHU")])
          (PDict [("form", PStr "RAICHU")]) Sample.built = (Ok (), s') ∧
        mons s' = mons Sample.built ∧ s' = Sample.built.
Proof.
  destruct (form_step_known (Fwd [("PIKACHU_NORMAL", 0)])
              (PDict [("pokemon", PStr "PIKACHU")])
              [("form", PStr "RAICHU")] 6 Sample.built)
    as (s' & Hrun & Hmons & _ & Hsame).
  - vm_compute. reflexivity.
  - exists s'. split; [exact Hrun|]. split; [exact Hmons|].
    apply Hsame; reflexivity.
Defined.

Lemma form_step_unknown_family_witness :
  form_step (Fwd [("PIKACHU_NORMAL", 0)])
    (PDict [("pokemon", PStr "MEW")]) (PDict [("form", PStr "MEW_NORMAL")])
    Sample.built = (Raise AttributeError, Sample.built).
Proof.
  apply (form_step_unknown_family _ _ _ (PStr "MEW")).
  - vm_compute. reflexivity.
  - reflexivity.
  - vm_compute. reflexivity.
Defined.

(** ** More on RecordSource *)

Section MoreRecords.
Context `{Externals}.

Lemma gamemaster_go_records pattern subkey good :
  Forall record_ok good →
  ∀ found, ∃ found', ∀ rest,
    gamemaster_go pattern subkey (good ++ rest) found
    = gamemaster_go pattern subkey rest found'.
Proof.
  induction 1 as [|r good Hr _ IH]; intros found; [by exists found|].
  destruct Hr as (d & -> & Ht & Hd).
  assert (∃ t, default (PStr "") (dict_get "templateId" d) = PStr t) as [t Et].
  { destruct Ht as [Ht | [t Ht]]; rewrite Ht; simpl; eauto. }
  assert (∃ p, default (PDict []) (dict_get "data" d) = PDict p) as [p Ep].
  { destruct Hd as [Hd | [p Hd]]; rewrite Hd; simpl; eauto. }
  destruct (re_search pattern t) eqn:Hs.
  - destruct (IH (found ++ [(t, if given subkey
                                 then default (PDict []) (dict_get (default "" subkey) p)
                                 else PDict p)])) as [found' Hf].
    exists found'. intros rest. rewrite <- Hf.
    cbn [app gamemaster_go py_get]. rewrite Et, Ep. cbn [mbind result_bind].
    rewrite Hs. cbn [py_get mbind result_bind]. by destruct (given subkey).
  - destruct (IH found) as [found' Hf]. exists found'. intros rest. rewrite <- Hf.
    cbn [app gamemaster_go py_get]. rewrite Et. cbn [mbind result_bind]. by rewrite Hs.
Qed.

(** X19. [get_gamemaster] does not skip what it cannot read: when the records
    before it are proper records, an element of the dump that is not a
    mapping makes the call raise [AttributeError], whatever the pattern
    and whether or not earlier records matched, and a record whose
    [templateId] is not a string makes it raise [TypeError]. *)
Theorem get_gamemaster_bad_record (pattern : string) (subkey : option string)
    (good rest : list pyval) (bad : pyval) (s : PogoData) :
  Forall record_ok good →
  raw_gamemaster s = good ++ bad :: rest →
  ((∀ d, bad ≠ PDict d) →
     get_gamemaster pattern subkey s = (Raise AttributeError, s)) ∧
  (∀ d v, bad = PDict d → dict_get "templateId" d = Some v → (∀ t, v ≠ PStr t) →
     get_gamemaster pattern subkey s = (Raise TypeError, s)).
Proof.
  intros Hgood Hraw. unfold get_gamemaster. rewrite bind_self, Hraw.
  destruct (gamemaster_go_records pattern subkey good Hgood []) as [found Hf].
  rewrite Hf. split.
  - intros Hbad. cbn [gamemaster_go]. destruct bad; try done. by destruct (Hbad d).
  - intros d v -> Hv Hns. cbn [gamemaster_go py_get]. rewrite Hv.
    cbn [default from_option id mbind result_bind]. destruct v; try done.
    by destruct (Hns s0).
Qed.

End MoreRecords.

Lemma get_gamemaster_bad_record_witness :
  let s := set_raw_gamemaster (Sample.gamemaster ++ [PStr "V0150_POKEMON_MEWTWO"]) blank in
  get_gamemaster "^V\d{4}_POKEMON_.*" (Some "pokemonSettings") s
    = (Raise AttributeError, s).
Proof.
  intros s.
  destruct (get_gamemaster_bad_record "^V\d{4}_POKEMON_.*" (Some "pokemonSettings")
              Sample.gamemaster [] (PStr "V0150_POKEMON_MEWTWO") s) as [Hbad _].
  - records_ok.
  - reflexivity.
  - apply Hbad. intros d. discriminate.
Defined.
